(** * Reporter-ion search of [tmt/tmt.py]

    A shallow embedding of the closest-match search, the tolerance
    resolution, the reference ion list, the spectrum lookup and the
    reporter searcher, followed by the properties proved about them.

    Numbers: Python's [float] (and [int] used as a measurement) is modelled
    by the rationals [Q], compared with [Qcompare], without rounding.  The
    properties that depend on how a difference is rounded are stated on a
    second embedding of the same functions, [Mach], which takes the
    arithmetic as a parameter and has binary64 as an instance.  Integers
    that are identifiers or charges are [Z]; list indices and lengths are
    [nat] (the code never forms a negative index: [len(a) - 1] is only
    computed when [len(a) > 0]). *)

From Stdlib Require Import QArith Qabs Qminmax Lqa ZArith Sorted Permutation.
From Stdlib Require Import PrimFloat Ascii.
From stdpp Require Import base list gmap strings.

Local Open Scope Q_scope.

(** ** The pieces of the Python runtime that the module relies on *)

Module Py.

(** Exceptions that can escape the modelled functions.  [OutOfFuel] is
    not a Python exception: it marks the bound of the model's [while]
    loop, and [bisect_right_fuel] below shows it is never produced. *)
Inductive exn : Type :=
| IndexError
| ValueError
| OutOfFuel.

Inductive result (A : Type) : Type :=
| Ok (a : A)
| Raise (e : exn).
Global Arguments Ok {A} a.
Global Arguments Raise {A} e.

Global Instance result_ret : MRet result := fun A a => Ok a.
Global Instance result_bind : MBind result := fun A B f m =>
  match m with
  | Ok a => f a
  | Raise e => Raise e
  end.

(** [x < y] and [x <= y] on numbers. *)
Definition Qltb (x y : Q) : bool :=
  match x ?= y with Lt => true | _ => false end.
Definition Qleb (x y : Q) : bool :=
  match x ?= y with Gt => false | _ => true end.

(** [a[i]] for a non-negative index. *)
Definition index {A : Type} (a : list A) (i : nat) : result A :=
  match a !! i with
  | Some e => Ok e
  | None => Raise IndexError
  end.

(** [range(lo, hi)] *)
Definition range (lo hi : nat) : list nat := seq lo (hi - lo).

Section Keyed.
Context {A : Type} (key : A -> Q).

(** The loop of [bisect.bisect_right(a, x, key=key)] (CPython's
    [Lib/bisect.py]):
<<
    while lo < hi:
        mid = (lo + hi) // 2
        if x < key(a[mid]): hi = mid
        else: lo = mid + 1
    return lo
>> *)
Fixpoint bisect_loop (fuel : nat) (a : list A) (x : Q) (lo hi : nat)
  : result nat :=
  match fuel with
  | O => Raise OutOfFuel
  | S fuel' =>
      if (lo <? hi)%nat then
        let mid := Nat.div (lo + hi) 2 in
        e ← index a mid;
        if Qltb x (key e)
        then bisect_loop fuel' a x lo mid
        else bisect_loop fuel' a x (mid + 1) hi
      else Ok lo
  end.

(** [bisect.bisect] is [bisect_right] with [lo = 0], [hi = len(a)]. *)
Definition bisect_right (x : Q) (a : list A) : result nat :=
  bisect_loop (S (length a)) a x 0 (length a).

(** [sorted(l, key=key)]: Python's sort is stable and compares keys
    with [<]; stable insertion sort computes the same list. *)
Fixpoint insert_by (x : A) (l : list A) : list A :=
  match l with
  | [] => [x]
  | y :: l' =>
      if Qltb (key y) (key x) then y :: insert_by x l' else x :: y :: l'
  end.

Fixpoint sorted (l : list A) : list A :=
  match l with
  | [] => []
  | x :: l' => insert_by x (sorted l')
  end.
End Keyed.

(** [min(l, key=f)]: the first element whose key is minimal; a later
    element replaces the current one only when its key is strictly
    smaller.  The key function may raise. *)
Fixpoint min_loop {B : Type} (f : B -> result Q) (best : B) (kbest : Q)
  (l : list B) : result B :=
  match l with
  | [] => Ok best
  | y :: l' =>
      ky ← f y;
      if Qltb ky kbest then min_loop f y ky l' else min_loop f best kbest l'
  end.

Definition min_by {B : Type} (f : B -> result Q) (l : list B) : result B :=
  match l with
  | [] => Raise ValueError
  | y :: l' => ky ← f y; min_loop f y ky l'
  end.

(** [max(l)]: the first maximal element. *)
Fixpoint max_loop (best : Q) (l : list Q) : Q :=
  match l with
  | [] => best
  | y :: l' => if Qltb best y then max_loop y l' else max_loop best l'
  end.

Definition max_of (l : list Q) : result Q :=
  match l with
  | [] => Raise ValueError
  | y :: l' => Ok (max_loop y l')
  end.

End Py.
Import Py.

(** ** tmt.py *)

Definition REPORTERS : list Q :=
  [ 126.127726;
    127.124761;
    127.131081;
    128.128116;
    128.134436;
    129.131471;
    129.137790;
    130.134825;
    130.141145;
    131.138180 ].

(** [index_most_closed(x, a, key=key)].  The two branches on
    [key is None] differ only in applying [key]; the call without a key is
    the instance [key := id] on a sequence of numbers. *)
Definition index_most_closed {A : Type} (x : Q) (a : list A) (key : A -> Q)
  : result nat :=
  bisect_i ← bisect_right key x a;
  if (bisect_i =? 0)%nat then Ok 0%nat
  else if (bisect_i =? length a)%nat then Ok (length a - 1)%nat
  else
    min_by (fun i => e ← index a i; Ok (Qabs (x - key e)))
           [bisect_i; (bisect_i - 1)%nat].

(** [most_closed(x, a, key=key)] *)
Definition most_closed {A : Type} (x : Q) (a : list A) (key : A -> Q)
  : result A :=
  i ← index_most_closed x a key;
  index a i.

(** [class Ppm]: [__call__] turns parts per million into a window at [mz]. *)
Record Ppm : Type := mkPpm { _ppm : Q }.

Definition Ppm_call (self : Ppm) (mz : Q) : Q := _ppm self * mz / 1000000.

(** A tolerance argument is typed [float | Ppm]. *)
Inductive tolerance : Type :=
| Abs (v : Q)
| Rel (p : Ppm).

(** [tol(mz) if isinstance(tol, Ppm) else tol] *)
Definition resolve (tol : tolerance) (mz : Q) : Q :=
  match tol with
  | Rel p => Ppm_call p mz
  | Abs v => v
  end.

(** [class Ion] *)
Record Ion : Type := mkIon { Ion_mz : Q; Ion_charge : Z }.

(** [class DDAList]: the converter of [_data] is
    [lambda l: sorted(l, key=attrgetter("mz"))]. *)
Record DDAList : Type := mkDDAList { _data : list Ion }.

Definition DDAList_new (l : list Ion) : DDAList :=
  {| _data := sorted Ion_mz l |}.

(** [DDAList.find] *)
Definition find (self : DDAList) (mz : Q) (tol : tolerance) (charge : Z)
  : result (option Ion) :=
  candidate ← most_closed mz (_data self) Ion_mz;
  let tol := resolve tol mz in
  if Qleb (Qabs (Ion_mz candidate - mz)) tol
     && (Ion_charge candidate =? charge)%Z
  then Ok (Some candidate)
  else Ok None.

(** [class Spectrum]; the two numpy arrays are lists of numbers. *)
Record Spectrum : Type := mkSpectrum {
  scan : Z;
  precursor_mz : Q;
  precursor_charge : Z;
  mz_a : list Q;
  intensity_a : list Q
}.

(** [Spectrum.get_intensity] *)
Definition get_intensity (self : Spectrum) (mz : Q) (tol : tolerance)
  : result Q :=
  let tol := resolve tol mz in
  peak_i ← index_most_closed mz (mz_a self) id;
  m ← index (mz_a self) peak_i;
  if Qltb (Qabs (m - mz)) tol
  then index (intensity_a self) peak_i
  else Ok 0.

(** A [dict] with number keys, in insertion order.  Assigning to a key
    that is already present (under [==]) replaces its value in place. *)
Definition dict : Type := list (Q * Q).

Fixpoint dict_set (d : dict) (k v : Q) : dict :=
  match d with
  | [] => [(k, v)]
  | (k', v') :: d' =>
      if Qeq_bool k' k then (k', v) :: d' else (k', v') :: dict_set d' k v
  end.

(** [{k: f(k) for k in ks}] *)
Fixpoint dict_comp_from (f : Q -> result Q) (d : dict) (ks : list Q)
  : result dict :=
  match ks with
  | [] => Ok d
  | k :: ks' => v ← f k; dict_comp_from f (dict_set d k v) ks'
  end.

Definition dict_comp (f : Q -> result Q) (ks : list Q) : result dict :=
  dict_comp_from f [] ks.

(** [class SearchRecord] *)
Record SearchRecord : Type := mkSearchRecord {
  rec_scan : Z;
  rec_precursor_mz : Q;
  reporters : dict
}.

(** The value held by [min_] in [min_diff]: it starts as [float("Inf")]
    and is then assigned the value of the walrus expression. *)
Inductive pyval : Type :=
| VInf
| VBool (b : bool)
| VNum (q : Q).

(** A [bool] in a numeric comparison counts as 1 or 0. *)
Definition Q_of_bool (b : bool) : Q := if b then 1 else 0.

(** [x < v] and [x > v] for a number [x]. *)
Definition lt_val (x : Q) (v : pyval) : bool :=
  match v with
  | VInf => true
  | VBool b => Qltb x (Q_of_bool b)
  | VNum q => Qltb x q
  end.

Definition gt_val (x : Q) (v : pyval) : bool :=
  match v with
  | VInf => false
  | VBool b => Qltb (Q_of_bool b) x
  | VNum q => Qltb q x
  end.

(** The body of the [for] loop of [min_diff]:
    [if diff := a[i] - a[i - 1] < min_: min_ = diff].  The comparison binds
    tighter than [:=], so [diff] is the Boolean result of the comparison. *)
Definition min_diff_step (a : list Q) (min_ : pyval) (i : nat)
  : result pyval :=
  ai ← index a i;
  ai1 ← index a (i - 1)%nat;
  let diff := lt_val (ai - ai1) min_ in
  if diff then Ok (VBool diff) else Ok min_.

Fixpoint min_diff_loop (a : list Q) (min_ : pyval) (idxs : list nat)
  : result pyval :=
  match idxs with
  | [] => Ok min_
  | i :: idxs' => m ← min_diff_step a min_ i; min_diff_loop a m idxs'
  end.

(** [min_diff], local to [_check_ms2_tol] *)
Definition min_diff (a : list Q) : result pyval :=
  let a := sorted id a in
  min_diff_loop a VInf (range 1 (length a - 1)).

(** [ReporterSearcher._check_ms2_tol], the validator of [ms2_tol] *)
Definition _check_ms2_tol (value : tolerance) : result unit :=
  reporter_min_diff ← min_diff REPORTERS;
  tol ← match value with
        | Rel p => m ← max_of REPORTERS; Ok (Ppm_call p m)
        | Abs v => Ok v
        end;
  if gt_val tol reporter_min_diff then Raise ValueError else Ok tt.

(** [class ReporterSearcher] *)
Record ReporterSearcher : Type := mkReporterSearcher {
  _dda_list : DDAList;
  ms1_tol : tolerance;
  ms2_tol : tolerance
}.

(** Construction: the generated [__init__] stores the fields and runs the
    validator. *)
Definition ReporterSearcher_new (dda_list : DDAList) (ms1 ms2 : tolerance)
  : result ReporterSearcher :=
  _ ← _check_ms2_tol ms2;
  Ok {| _dda_list := dda_list; ms1_tol := ms1; ms2_tol := ms2 |}.

(** One iteration of the loop of [ReporterSearcher.run]: nothing or one
    record.  An [Ion] is always truthy, so the walrus test is a test for
    [None]. *)
Definition run_step (self : ReporterSearcher) (spec : Spectrum)
  : result (option SearchRecord) :=
  precursor ← find (_dda_list self) (precursor_mz spec) (ms1_tol self)
                   (precursor_charge spec);
  match precursor with
  | None => Ok None
  | Some precursor =>
      d ← dict_comp (fun mz => get_intensity spec mz (ms2_tol self)) REPORTERS;
      Ok (Some {| rec_scan := scan spec;
                  rec_precursor_mz := Ion_mz precursor;
                  reporters := d |})
  end.

(** [ReporterSearcher.run] is a generator over the spectra that the reader
    yields, here the list [mgf_reader].  Its behaviour is the list of the
    records it yields, in order, and how it ends: exhausted ([None]) or by
    an exception raised in an iteration ([Some e]); the records yielded
    before the exception have been delivered. *)
Fixpoint run (self : ReporterSearcher) (mgf_reader : list Spectrum)
  : list SearchRecord * option exn :=
  match mgf_reader with
  | [] => ([], None)
  | spec :: rest =>
      match run_step self spec with
      | Raise e => ([], Some e)
      | Ok None => run self rest
      | Ok (Some record) =>
          let '(records, e) := run self rest in (record :: records, e)
      end
  end.

(** ** Lists as objects

    [sorted] returns a new list object; to speak about the input of the
    [DDAList] converter being left alone, list objects are placed in a
    store.  [DDAList_obj] is an instance whose [_data] refers to a list in
    the store. *)
Module Obj.

Definition loc : Type := nat.

Record DDAList_obj : Type := mkObj { data_ref : loc }.

(** [sorted(l, key=attrgetter("mz"))] on a reference: reads the list at
    [l] and allocates the result.  A reference always points into the
    store in Python; for one that does not, the model answers with an
    exception and leaves the store alone. *)
Definition sorted_ref (l : loc) (st : gmap loc (list Ion))
  : result loc * gmap loc (list Ion) :=
  match st !! l with
  | None => (Raise ValueError, st)
  | Some ions =>
      let l' := fresh (dom st) in
      (Ok l', <[l' := sorted Ion_mz ions]> st)
  end.

(** [DDAList(l)] *)
Definition new (l : loc) (st : gmap loc (list Ion))
  : result DDAList_obj * gmap loc (list Ion) :=
  match sorted_ref l st with
  | (Ok l', st') => (Ok {| data_ref := l' |}, st')
  | (Raise e, st') => (Raise e, st')
  end.

(** The operations available on an instance after construction: [find]
    is the only method ([from_skyline_csv] is a class method that builds
    another instance). *)
Inductive op : Type :=
| OpFind (mz : Q) (tol : tolerance) (charge : Z).

Definition exec (self : DDAList_obj) (o : op) (st : gmap loc (list Ion))
  : result (option Ion) * gmap loc (list Ion) :=
  match o with
  | OpFind mz tol charge =>
      match st !! data_ref self with
      | None => (Raise ValueError, st)
      | Some d => (find {| _data := d |} mz tol charge, st)
      end
  end.

Fixpoint exec_all (self : DDAList_obj) (os : list op)
  (st : gmap loc (list Ion)) : gmap loc (list Ion) :=
  match os with
  | [] => st
  | o :: os' => exec_all self os' (snd (exec self o st))
  end.

End Obj.

(** ** The search on numbers as the machine computes them

    The comparison of two distances, [abs(x - key(a[i]))], and the tests
    against a tolerance depend on how a difference is rounded.  For the
    properties that depend on it, the functions are given a second time
    with the arithmetic as a parameter: the type of numbers, the two
    comparisons, and the operations, each returning what the machine
    returns.  [B64] is binary64, Python's [float]; [Qexact] is the
    arithmetic of the definitions above, without rounding. *)

Record arith : Type := mkArith {
  num : Type;
  n_lt : num -> num -> bool;
  n_le : num -> num -> bool;
  n_sub : num -> num -> num;
  n_mul : num -> num -> num;
  n_div : num -> num -> num;
  n_abs : num -> num;
  n_zero : num;
  n_million : num
}.

Definition Qexact : arith :=
  {| num := Q; n_lt := Qltb; n_le := Qleb;
     n_sub := Qminus; n_mul := Qmult; n_div := Qdiv; n_abs := Qabs;
     n_zero := 0; n_million := 1000000 |}.

Definition B64 : arith :=
  {| num := float; n_lt := PrimFloat.ltb; n_le := PrimFloat.leb;
     n_sub := PrimFloat.sub; n_mul := PrimFloat.mul; n_div := PrimFloat.div;
     n_abs := PrimFloat.abs;
     n_zero := 0%float; n_million := 1e6%float |}.

Module Mach.
Section Machine.
Context (ar : arith).

(** The loop of [bisect.bisect_right], as in [Py.bisect_loop]. *)
Fixpoint bisect_loop {A : Type} (key : A -> num ar) (fuel : nat) (a : list A)
  (x : num ar) (lo hi : nat) : result nat :=
  match fuel with
  | O => Raise OutOfFuel
  | S fuel' =>
      if (lo <? hi)%nat then
        let mid := Nat.div (lo + hi) 2 in
        e ← index a mid;
        if n_lt ar x (key e)
        then bisect_loop key fuel' a x lo mid
        else bisect_loop key fuel' a x (mid + 1) hi
      else Ok lo
  end.

Definition bisect_right {A : Type} (key : A -> num ar) (x : num ar)
  (a : list A) : result nat :=
  bisect_loop key (S (length a)) a x 0 (length a).

(** [sorted(l, key=key)], as in [Py.sorted]. *)
Fixpoint insert_by {A : Type} (key : A -> num ar) (x : A) (l : list A)
  : list A :=
  match l with
  | [] => [x]
  | y :: l' =>
      if n_lt ar (key y) (key x)
      then y :: insert_by key x l' else x :: y :: l'
  end.

Fixpoint sorted {A : Type} (key : A -> num ar) (l : list A) : list A :=
  match l with
  | [] => []
  | x :: l' => insert_by key x (sorted key l')
  end.

(** [min(l, key=f)], as in [Py.min_by]. *)
Fixpoint min_loop {B : Type} (f : B -> result (num ar)) (best : B)
  (kbest : num ar) (l : list B) : result B :=
  match l with
  | [] => Ok best
  | y :: l' =>
      ky ← f y;
      if n_lt ar ky kbest
      then min_loop f y ky l' else min_loop f best kbest l'
  end.

Definition min_by {B : Type} (f : B -> result (num ar)) (l : list B)
  : result B :=
  match l with
  | [] => Raise ValueError
  | y :: l' => ky ← f y; min_loop f y ky l'
  end.

(** [index_most_closed(x, a, key=key)] *)
Definition index_most_closed {A : Type} (x : num ar) (a : list A)
  (key : A -> num ar) : result nat :=
  bisect_i ← bisect_right key x a;
  if (bisect_i =? 0)%nat then Ok 0%nat
  else if (bisect_i =? length a)%nat then Ok (length a - 1)%nat
  else
    min_by (fun i => e ← index a i; Ok (n_abs ar (n_sub ar x (key e))))
           [bisect_i; (bisect_i - 1)%nat].

(** [most_closed(x, a, key=key)] *)
Definition most_closed {A : Type} (x : num ar) (a : list A)
  (key : A -> num ar) : result A :=
  i ← index_most_closed x a key;
  index a i.

(** [Ppm.__call__]: [self._ppm * mz / 1e6] *)
Definition Ppm_call (_ppm mz : num ar) : num ar :=
  n_div ar (n_mul ar _ppm mz) (n_million ar).

(** A tolerance: a number, or a [Ppm] holding one. *)
Inductive tolerance : Type :=
| Abs (v : num ar)
| Rel (_ppm : num ar).

Definition resolve (tol : tolerance) (mz : num ar) : num ar :=
  match tol with
  | Rel p => Ppm_call p mz
  | Abs v => v
  end.

Record Ion : Type := mkIon { Ion_mz : num ar; Ion_charge : Z }.

Record DDAList : Type := mkDDAList { _data : list Ion }.

Definition DDAList_new (l : list Ion) : DDAList :=
  {| _data := sorted Ion_mz l |}.

(** [DDAList.find] *)
Definition find (self : DDAList) (mz : num ar) (tol : tolerance) (charge : Z)
  : result (option Ion) :=
  candidate ← most_closed mz (_data self) Ion_mz;
  let tol := resolve tol mz in
  if n_le ar (n_abs ar (n_sub ar (Ion_mz candidate) mz)) tol
     && (Ion_charge candidate =? charge)%Z
  then Ok (Some candidate)
  else Ok None.

Record Spectrum : Type := mkSpectrum {
  scan : Z;
  precursor_mz : num ar;
  precursor_charge : Z;
  mz_a : list (num ar);
  intensity_a : list (num ar)
}.

(** [Spectrum.get_intensity] *)
Definition get_intensity (self : Spectrum) (mz : num ar) (tol : tolerance)
  : result (num ar) :=
  let tol := resolve tol mz in
  peak_i ← index_most_closed mz (mz_a self) id;
  m ← index (mz_a self) peak_i;
  if n_lt ar (n_abs ar (n_sub ar m mz)) tol
  then index (intensity_a self) peak_i
  else Ok (n_zero ar).

(** [min_diff] of [_check_ms2_tol].  [min_] holds [float("Inf")] and then
    the Boolean of the walrus expression; a Boolean in a comparison counts
    as the number [of_bool] gives. *)
Inductive pyval : Type :=
| VBool (b : bool)
| VNum (n : num ar).

Section MinDiff.
Context (infinity : num ar) (of_bool : bool -> num ar).

Definition lt_val (x : num ar) (v : pyval) : bool :=
  match v with
  | VBool b => n_lt ar x (of_bool b)
  | VNum n => n_lt ar x n
  end.

Definition min_diff_step (a : list (num ar)) (min_ : pyval) (i : nat)
  : result pyval :=
  ai ← index a i;
  ai1 ← index a (i - 1)%nat;
  let diff := lt_val (n_sub ar ai ai1) min_ in
  if diff then Ok (VBool diff) else Ok min_.

Fixpoint min_diff_loop (a : list (num ar)) (min_ : pyval) (idxs : list nat)
  : result pyval :=
  match idxs with
  | [] => Ok min_
  | i :: idxs' => m ← min_diff_step a min_ i; min_diff_loop a m idxs'
  end.

Definition min_diff (a : list (num ar)) : result pyval :=
  let a := sorted id a in
  min_diff_loop a (VNum infinity) (range 1 (length a - 1)).
End MinDiff.

End Machine.
End Mach.

Arguments Mach.Abs {ar} v.
Arguments Mach.Rel {ar} _ppm.
Arguments Mach.mkIon {ar} Ion_mz Ion_charge.
Arguments Mach.Ion_mz {ar} i.
Arguments Mach.Ion_charge {ar} i.
Arguments Mach.mkDDAList {ar} _data.
Arguments Mach._data {ar} d.
Arguments Mach.mkSpectrum {ar} scan precursor_mz precursor_charge mz_a intensity_a.
Arguments Mach.mz_a {ar} s.
Arguments Mach.intensity_a {ar} s.
Arguments Mach.VBool {ar} b.
Arguments Mach.VNum {ar} n.

(** What the properties need of an arithmetic.  [fin] are the finite
    numbers and [real] those that are not NaN.  On them the comparisons are
    a total order; a difference of finite numbers is not NaN and its
    absolute value does not depend on the order of the operands; and the
    computed distance from [x] does not decrease when a number moves away
    from [x] on one side (rounding is monotone).  They are what IEEE 754
    round-to-nearest gives for binary64, which is not proved here; for
    [Qexact] they are proved below, with every number finite. *)
Record laws (ar : arith) : Type := mkLaws {
  fin : num ar -> Prop;
  real : num ar -> Prop;
  fin_real : forall x, fin x -> real x;
  le_total : forall x y, real x -> real y ->
    n_le ar x y = true \/ n_le ar y x = true;
  le_trans : forall x y z, real x -> real y -> real z ->
    n_le ar x y = true -> n_le ar y z = true -> n_le ar x z = true;
  lt_le : forall x y, real x -> real y ->
    n_lt ar x y = negb (n_le ar y x);
  dist_real : forall x y, fin x -> fin y -> real (n_abs ar (n_sub ar x y));
  dist_sym : forall x y, fin x -> fin y ->
    n_abs ar (n_sub ar x y) = n_abs ar (n_sub ar y x);
  dist_below : forall x a b, fin x -> fin a -> fin b ->
    n_le ar a b = true -> n_le ar b x = true ->
    n_le ar (n_abs ar (n_sub ar x b)) (n_abs ar (n_sub ar x a)) = true;
  dist_above : forall x a b, fin x -> fin a -> fin b ->
    n_le ar x a = true -> n_le ar a b = true ->
    n_le ar (n_abs ar (n_sub ar x a)) (n_abs ar (n_sub ar x b)) = true
}.
Arguments fin {ar} _ _.
Arguments real {ar} _ _.

(** Ascending under [key], by the machine's [<=]. *)
Definition asc {ar : arith} {A : Type} (key : A -> num ar) (a : list A) : Prop :=
  Sorted (fun u v => n_le ar (key u) (key v) = true) a.

(** Index [i] holds an element of [a] for which the computed
    [abs(key(a[i]) - x)] is least. *)
Definition nearest_at {ar : arith} {A : Type} (key : A -> num ar) (x : num ar)
  (a : list A) (i : nat) : Prop :=
  exists ei, a !! i = Some ei /\
    forall j ej, a !! j = Some ej ->
      n_le ar (n_abs ar (n_sub ar (key ei) x))
              (n_abs ar (n_sub ar (key ej) x)) = true.

(** ** Predicates used in the statements *)

(** Ascending under [key]: each element's key is at most the next one's. *)
Definition key_le {A : Type} (key : A -> Q) (u v : A) : Prop := key u <= key v.

Definition ascending {A : Type} (key : A -> Q) (a : list A) : Prop :=
  Sorted (key_le key) a.

(** The invariant of the bisection loop on an ascending list: everything
    left of [p] is at most [x], everything from [q] on is above [x].  At
    [p = q] it says that [p] is the rightmost insertion point of [x]. *)
Definition split_at {A : Type} (key : A -> Q) (a : list A) (x : Q)
  (p q : nat) : Prop :=
  (forall i e, (i < p)%nat -> a !! i = Some e -> key e <= x) /\
  (forall i e, (q <= i)%nat -> a !! i = Some e -> x < key e).

(** No two keys of the list are equal under [==]. *)
Fixpoint distinct_keys (ks : list Q) : bool :=
  match ks with
  | [] => true
  | k :: ks' =>
      forallb (fun k' => negb (Qeq_bool k k')) ks' && distinct_keys ks'
  end.

(** The minimum gap as the specification words it, for comparison with
    [min_diff]: the least of all differences between consecutive values of
    the list in ascending order ([None] when there is no pair). *)
Fixpoint gaps (a : list Q) : list Q :=
  match a with
  | x :: (y :: _) as t => (y - x) :: gaps t
  | _ => []
  end.

Definition spec_min_gap (a : list Q) : option Q :=
  match gaps (sorted id a) with
  | [] => None
  | g :: gs => Some (fold_left Qmin gs g)
  end.

(** [Ppm.__call__] on binary64 numbers, with the kernel's floating-point
    operations, to evaluate the docstring's example as Python does. *)
Module Binary64.
Definition Ppm_call (_ppm mz : float) : float := (_ppm * mz / 1e6)%float.
End Binary64.

(** ** The functions around the search: files, readers, rows

    File contents are taken as read: a CSV file is the list of rows that
    [csv.reader] yields, each a list of cells.  The builtins [float],
    [int] and [str] and [Path.suffix] are parameters of the functions that
    call them. *)

(** Exceptions of the reading functions: those of the search, and two
    more. *)
Inductive io_exn : Type :=
| Std (e : exn)
| StopIteration
| AttributeError.

Inductive io_result (A : Type) : Type :=
| Return (a : A)
| Throw (e : io_exn).
Arguments Return {A} a.
Arguments Throw {A} e.

Definition lift {A : Type} (r : result A) : io_result A :=
  match r with
  | Ok a => Return a
  | Raise e => Throw (Std e)
  end.

Section Paths.
Context {path : Type} (suffix : path -> string).

(** [distin_files(file1, file2)] on the two [Path] values *)
Definition distin_files (file1 file2 : path) : result (path * path) :=
  if String.eqb (suffix file1) ".mgf" && String.eqb (suffix file2) ".csv"
  then Ok (file1, file2)
  else if String.eqb (suffix file1) ".csv" && String.eqb (suffix file2) ".mgf"
  then Ok (file2, file1)
  else Raise ValueError.
End Paths.

(** The pattern [scan=([0-9]+)] of [extract_scan], on the characters of
    the title. *)
Definition is_digit (c : ascii) : bool :=
  (48 <=? nat_of_ascii c)%nat && (nat_of_ascii c <=? 57)%nat.

Definition scan_eq : list ascii := String.list_ascii_of_string "scan=".

(** The longest run of digits at the front, and what follows it. *)
Fixpoint span_digits (t : list ascii) : list ascii * list ascii :=
  match t with
  | c :: t' =>
      if is_digit c
      then let '(ds, rest) := span_digits t' in (c :: ds, rest)
      else ([], t)
  | [] => ([], [])
  end.

Fixpoint strip_prefix (p t : list ascii) : option (list ascii) :=
  match p, t with
  | [], _ => Some t
  | a :: p', b :: t' => if Ascii.eqb a b then strip_prefix p' t' else None
  | _ :: _, [] => None
  end.

(** A match that starts at the first character: group 1 when there is
    one.  [[0-9]+] is greedy and nothing follows it in the pattern, so the
    group is the whole run of digits. *)
Definition match_here (t : list ascii) : option (list ascii) :=
  match strip_prefix scan_eq t with
  | Some rest =>
      match span_digits rest with
      | ([], _) => None
      | (ds, _) => Some ds
      end
  | None => None
  end.

(** [re.search]: the match at the leftmost position that has one. *)
Fixpoint re_search (t : list ascii) : option (list ascii) :=
  match match_here t with
  | Some g => Some g
  | None =>
      match t with
      | [] => None
      | _ :: t' => re_search t'
      end
  end.

Section Readers.
Context (to_float : string -> result Q) (to_int : string -> result Z).

(** [extract_scan], local to [Spectrum.from_pyteomics_spec]: [m.group(1)]
    on a failed search is an attribute access on [None]. *)
Definition extract_scan (title : string) : io_result Z :=
  match re_search (String.list_ascii_of_string title) with
  | Some g => lift (to_int (String.string_of_list_ascii g))
  | None => Throw AttributeError
  end.

(** [Ion(mz, charge) for mz, charge, *_ in reader]: unpacking a row with
    fewer than two cells raises [ValueError]; the converters of [Ion] run
    in the order of its fields. *)
Definition Ion_of_row (row : list string) : result Ion :=
  match row with
  | mz :: charge :: _ =>
      m ← to_float mz; c ← to_int charge; Ok (mkIon m c)
  | _ => Raise ValueError
  end.

(** [DDAList.from_skyline_csv] on the rows of the file: [next(reader)]
    drops the header row and raises [StopIteration] when there is none. *)
Definition from_skyline_csv (rows : list (list string)) : io_result DDAList :=
  match rows with
  | [] => Throw StopIteration
  | _ :: rest =>
      match mapM Ion_of_row rest with
      | Ok data => Return (DDAList_new data)
      | Raise e => Throw (Std e)
      end
  end.
End Readers.

(** Instances of [int] and [float] on plain digit strings, to evaluate the
    readers on examples (the builtins accept more). *)
Definition digit_value (c : ascii) : Z := Z.of_nat (nat_of_ascii c) - 48.

Definition int_of_digits (s : string) : result Z :=
  match String.list_ascii_of_string s with
  | [] => Raise ValueError
  | ds =>
      if forallb is_digit ds
      then Ok (fold_left (fun n c => 10 * n + digit_value c) ds 0)%Z
      else Raise ValueError
  end.

Definition float_of_digits (s : string) : result Q :=
  n ← int_of_digits s; Ok (inject_Z n).

(** A value of a row: an integer or a number. *)
Inductive cell : Type :=
| CInt (z : Z)
| CNum (q : Q).

(** A [dict] with string keys, in insertion order; assigning to a key that
    is present replaces its value in place. *)
Fixpoint row_set (d : list (string * cell)) (k : string) (v : cell)
  : list (string * cell) :=
  match d with
  | [] => [(k, v)]
  | (k', v') :: d' =>
      if String.eqb k' k then (k', v) :: d' else (k', v') :: row_set d' k v
  end.

(** [d.update(items)] *)
Definition row_update (d items : list (string * cell)) : list (string * cell) :=
  fold_left (fun d kv => row_set d kv.1 kv.2) items d.

Section Rows.
Context (str : Q -> string).

(** [SearchRecord.as_dict]: the inner comprehension builds a dict of its
    own, which is then unpacked into the literal. *)
Definition as_dict (self : SearchRecord) : list (string * cell) :=
  let inner :=
    row_update [] ((fun kv => (str kv.1, CNum kv.2)) <$> reporters self) in
  row_update [("precursor"%string, CNum (rec_precursor_mz self));
              ("scan"%string, CInt (rec_scan self))] inner.

(** [SearchRecord.fields] *)
Definition fields : list string :=
  ["scan"%string; "precursor"%string] ++ (str <$> REPORTERS).
End Rows.

(** The text does not start with a digit. *)
Definition no_digit_ahead (suf : list ascii) : Prop :=
  match suf with
  | [] => True
  | c :: _ => is_digit c = false
  end.

(** The occurrences that the pattern can match: at position [i] of [t]
    stands [scan=], then the digits [ds], at least one, then no further
    digit. *)
Definition occurs_at (t : list ascii) (i : nat) (ds : list ascii) : Prop :=
  exists suf,
    (i <= length t)%nat /\
    drop i t = scan_eq ++ ds ++ suf /\
    ds <> [] /\ forallb is_digit ds = true /\ no_digit_ahead suf.

(** A row that the loader accepts, and the ion it stands for: the first two
    cells convert to the m/z and the charge; further cells are free. *)
Definition row_ion (to_float : string -> result Q) (to_int : string -> result Z)
  (row : list string) (ion : Ion) : Prop :=
  exists mz charge rest,
    row = mz :: charge :: rest /\
    to_float mz = Ok (Ion_mz ion) /\ to_int charge = Ok (Ion_charge ion).

(** Whether [find] returns an ion for the precursor of a spectrum, that is
    whether the walrus test of [run] succeeds. *)
Definition is_matched (self : ReporterSearcher) (sp : Spectrum) : bool :=
  match find (_dda_list self) (precursor_mz sp) (ms1_tol self)
             (precursor_charge sp) with
  | Ok (Some _) => true
  | _ => false
  end.

(** ** Concrete inputs

    The fixtures of [test/test_tmt.py] and two spectra for an end-to-end
    run. *)
Definition dda_list : DDAList :=
  DDAList_new [mkIon 1000 3; mkIon 2000 3; mkIon 3000 4].

Definition spec : Spectrum :=
  {| scan := 1; precursor_mz := 1000; precursor_charge := 3;
     mz_a := [100; 200; 300];
     intensity_a := [1000000; 2000000; 3000000] |}.

(** A spectrum whose precursor matches [Ion(1000, 3)] and that has peaks
    exactly at the first two reporters, and one whose precursor matches no
    reference ion. *)
Definition spec_hit : Spectrum :=
  {| scan := 17; precursor_mz := 1000.01; precursor_charge := 3;
     mz_a := [126.127726; 127.124761; 500];
     intensity_a := [1500; 2500; 7] |}.

Definition spec_miss : Spectrum :=
  {| scan := 18; precursor_mz := 1500; precursor_charge := 3;
     mz_a := [126.127726; 300];
     intensity_a := [40; 50] |}.

Definition searcher : ReporterSearcher :=
  {| _dda_list := dda_list;
     ms1_tol := Rel (mkPpm 20);
     ms2_tol := Rel (mkPpm 20) |}.


Definition m_ions_b64 : list (Mach.Ion B64) :=
  [Mach.mkIon (ar := B64) 1000%float 3; Mach.mkIon (ar := B64) 2000%float 3;
   Mach.mkIon (ar := B64) 3000%float 4].


Definition m_spec_b64 : Mach.Spectrum B64 :=
  Mach.mkSpectrum (ar := B64) 1 1000%float 3
    [100%float; 200%float; 300%float] [1e6%float; 2e6%float; 3e6%float].

(** ** Comparisons *)

Lemma Qltb_true x y : Qltb x y = true <-> x < y.
Proof.
  unfold Qltb. rewrite Qlt_alt. destruct (x ?= y); split; congruence.
Qed.

Lemma Qltb_false x y : Qltb x y = false <-> y <= x.
Proof.
  split; intros H.
  - apply Qnot_lt_le. intros Hlt. apply Qltb_true in Hlt. congruence.
  - destruct (Qltb x y) eqn:E; [|reflexivity].
    apply Qltb_true in E. lra.
Qed.

Lemma Qleb_true x y : Qleb x y = true <-> x <= y.
Proof.
  unfold Qleb. rewrite Qle_alt. destruct (x ?= y); split; congruence.
Qed.

Lemma Qleb_false x y : Qleb x y = false <-> y < x.
Proof.
  split; intros H.
  - apply Qnot_le_lt. intros Hle. apply Qleb_true in Hle. congruence.
  - destruct (Qleb x y) eqn:E; [|reflexivity].
    apply Qleb_true in E. lra.
Qed.

(** ** The exception monad *)

Lemma bind_Ok {A B : Type} (f : A -> result B) (a : A) : (Ok a ≫= f) = f a.
Proof. reflexivity. Qed.

Lemma bind_Raise {A B : Type} (f : A -> result B) (e : exn) :
  (Raise e ≫= f) = Raise e.
Proof. reflexivity. Qed.

Lemma Ok_inj {A : Type} (x y : A) : Ok x = Ok y -> x = y.
Proof. congruence. Qed.

(** ** Indexing *)

Lemma index_Ok {A : Type} (a : list A) i e : a !! i = Some e -> index a i = Ok e.
Proof. unfold index. intros ->. reflexivity. Qed.

Lemma index_lt {A : Type} (a : list A) i :
  (i < length a)%nat -> exists e, a !! i = Some e /\ index a i = Ok e.
Proof.
  intros Hi. destruct (lookup_lt_is_Some_2 a i Hi) as [e He].
  exists e. split; [assumption | by apply index_Ok].
Qed.

Lemma index_nil {A : Type} i : index (@nil A) i = Raise IndexError.
Proof. reflexivity. Qed.

(** ** Ascending lists *)

Section Ascending.
Context {A : Type} (key : A -> Q).

Lemma ascending_strongly a :
  ascending key a -> StronglySorted (key_le key) a.
Proof.
  apply Sorted_StronglySorted. intros u v w Huv Hvw.
  unfold key_le in *. lra.
Qed.

Lemma ascending_lookup a i j ei ej :
  ascending key a -> (i <= j)%nat ->
  a !! i = Some ei -> a !! j = Some ej -> key ei <= key ej.
Proof.
  intros Ha. apply ascending_strongly in Ha.
  revert i j. induction Ha as [|u a Hs IH Hall]; intros i j Hij Hi Hj.
  - discriminate.
  - destruct i as [|i], j as [|j]; simpl in *.
    + inversion Hi; inversion Hj; subst. lra.
    + inversion Hi; subst.
      rewrite Forall_forall in Hall. apply Hall.
      eapply list_elem_of_lookup_2; eassumption.
    + lia.
    + apply (IH i j); [lia | assumption | assumption].
Qed.
End Ascending.

(** ** [bisect_right] *)

Section Bisect.
Context {A : Type} (key : A -> Q) (a : list A) (x : Q).

Lemma mid_bounds lo hi :
  (lo < hi)%nat -> (lo <= Nat.div (lo + hi) 2 < hi)%nat.
Proof.
  intros H.
  pose proof (Nat.div_mod_eq (lo + hi) 2) as E.
  pose proof (Nat.mod_upper_bound (lo + hi) 2) as U.
  lia.
Qed.

(** With fuel above [hi - lo] the loop ends inside [lo, hi]; no element
    is read out of range and the fuel is not used up. *)
Lemma bisect_loop_range fuel lo hi :
  (lo <= hi <= length a)%nat -> (hi - lo < fuel)%nat ->
  exists p, bisect_loop key fuel a x lo hi = Ok p /\ (lo <= p <= hi)%nat.
Proof.
  revert lo hi. induction fuel as [|fuel IH]; intros lo hi Hr Hf; [lia|].
  cbn [bisect_loop]. destruct (Nat.ltb_spec lo hi) as [Hlt|Hge].
  - pose proof (mid_bounds lo hi Hlt) as Hm.
    destruct (index_lt a (Nat.div (lo + hi) 2)) as (e & _ & ->); [lia|].
    rewrite bind_Ok. destruct (Qltb x (key e)).
    + destruct (IH lo (Nat.div (lo + hi) 2)) as (p & -> & Hp); [lia | lia |].
      exists p. split; [reflexivity | lia].
    + destruct (IH (Nat.div (lo + hi) 2 + 1)%nat hi) as (p & -> & Hp);
        [lia | lia |].
      exists p. split; [reflexivity | lia].
  - exists lo. split; [reflexivity | lia].
Qed.

(** The Python loop terminates: the bound of the model is never hit. *)
Lemma bisect_right_fuel :
  exists p, bisect_right key x a = Ok p /\ (p <= length a)%nat.
Proof.
  unfold bisect_right.
  destruct (bisect_loop_range (S (length a)) 0 (length a)) as (p & -> & Hp);
    [lia | lia |].
  exists p. split; [reflexivity | lia].
Qed.

Lemma bisect_loop_split fuel lo hi p :
  ascending key a -> (lo <= hi <= length a)%nat ->
  split_at key a x lo hi ->
  bisect_loop key fuel a x lo hi = Ok p -> split_at key a x p p.
Proof.
  intros Ha. revert lo hi.
  induction fuel as [|fuel IH]; intros lo hi Hr [Hl Hh] Hp; [discriminate|].
  cbn [bisect_loop] in Hp. destruct (Nat.ltb_spec lo hi) as [Hlt|Hge].
  - pose proof (mid_bounds lo hi Hlt) as Hm.
    destruct (index_lt a (Nat.div (lo + hi) 2)) as (e & He & Hi); [lia|].
    rewrite Hi, bind_Ok in Hp.
    destruct (Qltb x (key e)) eqn:Hc.
    + apply Qltb_true in Hc.
      apply (IH lo (Nat.div (lo + hi) 2)); [lia | | assumption].
      split; [assumption|].
      intros i ei Hge Hei.
      pose proof (ascending_lookup key a _ _ _ _ Ha Hge He Hei). lra.
    + apply Qltb_false in Hc.
      apply (IH (Nat.div (lo + hi) 2 + 1)%nat hi); [lia | | assumption].
      split; [|assumption].
      intros i ei Hlt' Hei.
      assert (i <= Nat.div (lo + hi) 2)%nat as Hle by lia.
      pose proof (ascending_lookup key a _ _ _ _ Ha Hle Hei He). lra.
  - inversion Hp; subst p.
    assert (lo = hi) as -> by lia. split; assumption.
Qed.

(** On an ascending list [bisect_right] returns the rightmost insertion
    point of [x]. *)
Lemma bisect_right_ascending :
  ascending key a ->
  exists p, bisect_right key x a = Ok p /\ (p <= length a)%nat /\
    split_at key a x p p.
Proof.
  intros Ha. destruct bisect_right_fuel as (p & Hp & Hle).
  exists p. split; [assumption|]. split; [assumption|].
  unfold bisect_right in Hp.
  apply (bisect_loop_split (S (length a)) 0%nat (length a) p Ha);
    [lia | | assumption].
  split.
  - intros i e Hi. lia.
  - intros i e Hi He. apply lookup_lt_Some in He. lia.
Qed.
End Bisect.

(** ** [min] over two candidates *)

Lemma min_by_pair {B : Type} (f : B -> result Q) (i1 i2 : B) (k1 k2 : Q) :
  f i1 = Ok k1 -> f i2 = Ok k2 ->
  min_by f [i1; i2] = Ok (if Qltb k2 k1 then i2 else i1).
Proof.
  intros H1 H2. unfold min_by. rewrite H1, bind_Ok.
  cbn [min_loop]. rewrite H2, bind_Ok.
  destruct (Qltb k2 k1); reflexivity.
Qed.

(** ** [index_most_closed] *)



Section Closest.
Context {A : Type} (key : A -> Q) (x : Q) (a : list A).

(** The three exits of [index_most_closed], by the insertion point; no
    order on [a] is needed for them. *)
Lemma index_most_closed_cases p :
  bisect_right key x a = Ok p -> (p <= length a)%nat ->
  (p = 0%nat /\ index_most_closed x a key = Ok 0%nat) \/
  (p <> 0%nat /\ p = length a /\
     index_most_closed x a key = Ok (length a - 1)%nat) \/
  ((0 < p < length a)%nat /\ exists u v,
     a !! (p - 1)%nat = Some u /\ a !! p = Some v /\
     index_most_closed x a key =
       Ok (if Qltb (Qabs (x - key u)) (Qabs (x - key v))
           then (p - 1)%nat else p)).
Proof.
  intros Hb Hle. unfold index_most_closed. rewrite Hb, bind_Ok.
  destruct (Nat.eqb_spec p 0) as [->|Hp0]; [left; split; reflexivity|].
  destruct (Nat.eqb_spec p (length a)) as [Hpl|Hpl].
  - right. left. split; [assumption|]. split; [assumption | reflexivity].
  - right. right. split; [lia|].
    destruct (index_lt a (p - 1)) as (u & Hu & Hiu); [lia|].
    destruct (index_lt a p) as (v & Hv & Hiv); [lia|].
    exists u, v. split; [assumption|]. split; [assumption|].
    apply min_by_pair.
    + rewrite Hiv. reflexivity.
    + rewrite Hiu. reflexivity.
Qed.

(** On a non-empty list the result is an index of the list. *)
Lemma index_most_closed_in_range :
  a <> [] ->
  exists i e, index_most_closed x a key = Ok i /\ a !! i = Some e.
Proof.
  intros Hne.
  assert (0 < length a)%nat as Hlen by (destruct a; [congruence | simpl; lia]).
  destruct (bisect_right_fuel key a x) as (p & Hb & Hle).
  destruct (index_most_closed_cases p Hb Hle)
    as [[_ Hi] | [(_ & _ & Hi) | (Hp & u & v & Hu & Hv & Hi)]].
  - destruct (index_lt a 0) as (e & He & _); [lia|]. eauto.
  - destruct (index_lt a (length a - 1)) as (e & He & _); [lia|]. eauto.
  - rewrite Hi. destruct (Qltb _ _); eauto.
Qed.

End Closest.

(** ** [sorted] *)

Section Sorting.
Context {A : Type} (key : A -> Q).

Lemma insert_by_perm x l : insert_by key x l ≡ₚ x :: l.
Proof.
  induction l as [|y l IH]; [reflexivity|].
  cbn [insert_by]. destruct (Qltb (key y) (key x)); [|reflexivity].
  rewrite IH. apply Permutation_swap.
Qed.

Lemma sorted_perm l : sorted key l ≡ₚ l.
Proof.
  induction l as [|x l IH]; [reflexivity|].
  cbn [sorted]. rewrite insert_by_perm, IH. reflexivity.
Qed.

Lemma insert_by_hd y x l :
  key_le key y x -> HdRel (key_le key) y l ->
  HdRel (key_le key) y (insert_by key x l).
Proof.
  intros Hyx Hyl. destruct l as [|z l]; cbn [insert_by].
  - constructor. assumption.
  - destruct (Qltb (key z) (key x)); constructor.
    + apply HdRel_inv in Hyl. assumption.
    + assumption.
Qed.

Lemma insert_by_ascending x l :
  ascending key l -> ascending key (insert_by key x l).
Proof.
  unfold ascending. induction 1 as [|y l Hs IH Hhd]; cbn [insert_by].
  - repeat constructor.
  - destruct (Qltb (key y) (key x)) eqn:Hc.
    + apply Qltb_true in Hc. constructor; [assumption|].
      apply insert_by_hd; [|assumption]. unfold key_le. lra.
    + apply Qltb_false in Hc. constructor.
      * constructor; assumption.
      * constructor. assumption.
Qed.

Lemma sorted_ascending l : ascending key (sorted key l).
Proof.
  induction l as [|x l IH]; cbn [sorted].
  - constructor.
  - apply insert_by_ascending. assumption.
Qed.

Lemma sorted_nil_iff l : sorted key l = [] <-> l = [].
Proof.
  split; [|intros ->; reflexivity].
  intros H. apply Permutation_nil. rewrite <- H. apply sorted_perm.
Qed.
End Sorting.

(** ** The store of list objects *)

Lemma exec_store self o st : snd (Obj.exec self o st) = st.
Proof.
  destruct o as [mz tol charge]. cbn [Obj.exec].
  destruct (st !! Obj.data_ref self); reflexivity.
Qed.

Lemma exec_all_store self os st : Obj.exec_all self os st = st.
Proof.
  induction os as [|o os IH]; [reflexivity|].
  cbn [Obj.exec_all]. rewrite exec_store. apply IH.
Qed.

Lemma new_store l ions (st : gmap Obj.loc (list Ion)) :
  st !! l = Some ions ->
  exists self,
    Obj.new l st = (Ok self, <[Obj.data_ref self := sorted Ion_mz ions]> st) /\
    st !! Obj.data_ref self = None.
Proof.
  intros Hl. unfold Obj.new, Obj.sorted_ref. rewrite Hl.
  exists {| Obj.data_ref := fresh (dom st) |}. split; [reflexivity|].
  cbn [Obj.data_ref]. apply not_elem_of_dom. apply is_fresh.
Qed.

(** ** Dictionaries built by comprehension *)

Lemma dict_set_new d k v :
  forallb (fun k' => negb (Qeq_bool k' k)) d.*1 = true ->
  dict_set d k v = d ++ [(k, v)].
Proof.
  induction d as [|[k' v'] d IH]; [reflexivity|].
  cbn [fmap list_fmap forallb fst dict_set app].
  intros H. apply andb_true_iff in H as [Hk Hd].
  apply negb_true_iff in Hk. rewrite Hk. f_equal. apply IH. exact Hd.
Qed.

Lemma distinct_keys_before l1 k l2 :
  distinct_keys (l1 ++ k :: l2) = true ->
  forallb (fun k' => negb (Qeq_bool k' k)) l1 = true.
Proof.
  induction l1 as [|k1 l1 IH]; [reflexivity|].
  cbn [app distinct_keys forallb]. intros H.
  apply andb_true_iff in H as [H1 H2].
  rewrite forallb_app in H1. apply andb_true_iff in H1 as [_ H1].
  cbn [forallb] in H1. apply andb_true_iff in H1 as [H1 _].
  rewrite H1. cbn [andb]. apply IH. exact H2.
Qed.

Lemma dict_comp_from_zip f ks : forall vs d,
  Forall2 (fun k v => f k = Ok v) ks vs ->
  distinct_keys (d.*1 ++ ks) = true ->
  dict_comp_from f d ks = Ok (d ++ zip ks vs).
Proof.
  induction ks as [|k ks IH]; intros vs d HF Hd.
  - inversion HF; subst. cbn [dict_comp_from zip zip_with].
    rewrite app_nil_r. reflexivity.
  - inversion HF as [|? v ? vs' Hk HF']; subst.
    cbn [dict_comp_from]. rewrite Hk, bind_Ok.
    rewrite dict_set_new by (eapply distinct_keys_before; exact Hd).
    rewrite (IH vs' (d ++ [(k, v)])).
    + rewrite <- app_assoc. reflexivity.
    + exact HF'.
    + rewrite fmap_app, <- app_assoc. exact Hd.
Qed.

Lemma dict_comp_zip f ks vs :
  Forall2 (fun k v => f k = Ok v) ks vs ->
  distinct_keys ks = true ->
  dict_comp f ks = Ok (zip ks vs).
Proof.
  intros HF Hd. unfold dict_comp.
  rewrite (dict_comp_from_zip f ks vs []); [reflexivity | exact HF | exact Hd].
Qed.

Lemma REPORTERS_distinct : distinct_keys REPORTERS = true.
Proof. vm_compute. reflexivity. Qed.

(** ** The generator [run] *)

Lemma run_app self l1 l2 out :
  run self l1 = (out, None) ->
  run self (l1 ++ l2) = (out ++ (run self l2).1, (run self l2).2).
Proof.
  revert out. induction l1 as [|spec l1 IH]; intros out H.
  - cbn [run] in H. injection H as <-. cbn [app].
    destruct (run self l2); reflexivity.
  - cbn [app run] in *.
    destruct (run_step self spec) as [[record|]|e].
    + destruct (run self l1) as [records e] eqn:E.
      injection H as <- ->. rewrite (IH records eq_refl). reflexivity.
    + apply IH. exact H.
    + discriminate.
Qed.

(** ** The validator of [ms2_tol] *)

Lemma min_diff_step_value a m i :
  (1 <= i < length a)%nat -> m = VInf \/ m = VBool true ->
  exists m', min_diff_step a m i = Ok m' /\ (m' = VInf \/ m' = VBool true).
Proof.
  intros Hi Hm. unfold min_diff_step.
  destruct (index_lt a i) as (ai & _ & ->); [lia|].
  destruct (index_lt a (i - 1)) as (ai1 & _ & ->); [lia|].
  rewrite !bind_Ok.
  destruct (lt_val (ai - ai1) m) eqn:E; eauto.
Qed.

Lemma min_diff_loop_value a idxs : forall m,
  Forall (fun i => (1 <= i < length a)%nat) idxs ->
  m = VInf \/ m = VBool true ->
  exists m', min_diff_loop a m idxs = Ok m' /\ (m' = VInf \/ m' = VBool true).
Proof.
  induction idxs as [|i idxs IH]; intros m HF Hm.
  - exists m. split; [reflexivity | exact Hm].
  - inversion HF as [|? ? Hi HF']; subst.
    destruct (min_diff_step_value a m i Hi Hm) as (m1 & E1 & Hm1).
    cbn [min_diff_loop]. rewrite E1, bind_Ok. apply IH; assumption.
Qed.

(** Whatever the list, [min_diff] returns infinity or [True], never a
    difference: the walrus target receives the result of the comparison. *)
Lemma min_diff_never_gap a :
  min_diff a = Ok VInf \/ min_diff a = Ok (VBool true).
Proof.
  unfold min_diff.
  destruct (min_diff_loop_value (sorted id a)
              (range 1 (length (sorted id a) - 1)) VInf) as (m & E & Hm).
  - unfold range. apply Forall_forall. intros i Hi.
    apply list_elem_of_In, in_seq in Hi. lia.
  - left. reflexivity.
  - rewrite E. destruct Hm as [-> | ->]; [left | right]; reflexivity.
Qed.

Lemma min_diff_REPORTERS : min_diff REPORTERS = Ok (VBool true).
Proof. vm_compute. reflexivity. Qed.

Lemma max_of_REPORTERS : max_of REPORTERS = Ok 131.138180.
Proof. vm_compute. reflexivity. Qed.

(** The validator compares the resolved tolerance with 1. *)
Lemma check_ms2_tol_unfold value :
  _check_ms2_tol value =
  if Qltb 1 (resolve value 131.138180) then Raise ValueError else Ok tt.
Proof.
  unfold _check_ms2_tol. rewrite min_diff_REPORTERS, bind_Ok.
  destruct value as [v|p]; cbn [resolve].
  - rewrite bind_Ok. reflexivity.
  - rewrite max_of_REPORTERS, !bind_Ok. reflexivity.
Qed.

Lemma check_ms2_tol_raises value :
  _check_ms2_tol value = Raise ValueError <-> 1 < resolve value 131.138180.
Proof.
  rewrite check_ms2_tol_unfold, <- Qltb_true.
  destruct (Qltb 1 _); split; congruence.
Qed.

(** ** [most_closed] *)

Lemma most_closed_nil {A : Type} (key : A -> Q) (x : Q) :
  index_most_closed x (@nil A) key = Ok 0%nat /\
  most_closed x (@nil A) key = Raise IndexError.
Proof. split; reflexivity. Qed.

(** ** The examples of the test suite *)

Example index_most_closed_t1 :
  index_most_closed 4 [1; 2; 3; 7; 8] id = Ok 2%nat.
Proof. reflexivity. Qed.

Example index_most_closed_t2 :
  index_most_closed 0 [1; 2; 3; 7; 8] id = Ok 0%nat.
Proof. reflexivity. Qed.

Example index_most_closed_t3 :
  index_most_closed 10 [1; 2; 3; 7; 8] id = Ok 4%nat.
Proof. reflexivity. Qed.

Example index_most_closed_t4 :
  index_most_closed 3 [1; 2; 3; 7; 8] id = Ok 2%nat.
Proof. reflexivity. Qed.

Example most_closed_keyed :
  most_closed 4 [mkIon 1 0; mkIon 2 0; mkIon 5 0] Ion_mz = Ok (mkIon 5 0).
Proof. reflexivity. Qed.

Example find_t1 : find dda_list 1000.5 (Abs 1) 3 = Ok (Some (mkIon 1000 3)).
Proof. vm_compute. reflexivity. Qed.

Example find_t2 : find dda_list 1000.5 (Abs 1) 4 = Ok None.
Proof. vm_compute. reflexivity. Qed.

Example find_t3 : find dda_list 3000 (Abs 1) 4 = Ok (Some (mkIon 3000 4)).
Proof. vm_compute. reflexivity. Qed.

Example find_t4 :
  find dda_list 1000.5 (Rel (mkPpm 1000)) 3 = Ok (Some (mkIon 1000 3)).
Proof. vm_compute. reflexivity. Qed.

Example get_intensity_t1 : get_intensity spec 500 (Abs 1) = Ok 0.
Proof. vm_compute. reflexivity. Qed.

Example get_intensity_t2 : get_intensity spec 100.5 (Abs 1) = Ok 1000000.
Proof. vm_compute. reflexivity. Qed.

Example get_intensity_t3 : get_intensity spec 201 (Abs 5) = Ok 2000000.
Proof. vm_compute. reflexivity. Qed.

Example get_intensity_t4 : get_intensity spec 100.5 (Rel (mkPpm 10)) = Ok 0.
Proof. vm_compute. reflexivity. Qed.

Example get_intensity_t5 :
  get_intensity spec 100.00001 (Rel (mkPpm 10)) = Ok 1000000.
Proof. vm_compute. reflexivity. Qed.

(** End to end: the matching spectrum gives one record with the two peaks
    and zeros elsewhere, the other spectrum gives none. *)
Example run_end_to_end :
  run searcher [spec_miss; spec_hit; spec_miss] =
  ([ {| rec_scan := 17; rec_precursor_mz := 1000;
        reporters := zip REPORTERS [1500; 2500; 0; 0; 0; 0; 0; 0; 0; 0] |} ],
   None).
Proof. vm_compute. reflexivity. Qed.

(** ** Closest-match search: the claims *)


(** C5, as stated, fails: on the empty sequence the search returns index 0
    instead of raising. *)
Lemma index_most_closed_empty_returns :
  index_most_closed 1 (@nil Q) id = Ok 0%nat.
Proof. reflexivity. Qed.

(** C5, amended.  For every query [x], [index_most_closed] on an empty
    sequence returns index 0 and raises nothing; it is [most_closed], which
    then reads the element at that index, that fails on an empty sequence,
    with [IndexError]. *)
Theorem index_most_closed_empty {A : Type} (key : A -> Q) (x : Q) :
  index_most_closed x (@nil A) key = Ok 0%nat /\
  most_closed x (@nil A) key = Raise IndexError.
Proof. apply most_closed_nil. Qed.

(** ** [DDAList.find]: the claims *)

(** C4, as stated, fails: on the empty reference list [find] raises
    [IndexError] instead of returning [None]. *)
Lemma find_empty_raises_example :
  find (DDAList_new []) 1000 (Abs 1) 3 = Raise IndexError.
Proof. reflexivity. Qed.

(** C4, amended.  For every query [(mz, tol, charge)], [DDAList.find] on an
    empty reference list raises [IndexError] (from [most_closed] reading
    index 0 of the empty list); it does not return [None]. *)
Theorem find_empty (self : DDAList) (mz : Q) (tol : tolerance) (charge : Z) :
  _data self = [] -> find self mz tol charge = Raise IndexError.
Proof.
  intros Hd. unfold find. rewrite Hd.
  rewrite (proj2 (most_closed_nil Ion_mz mz)). apply bind_Raise.
Qed.

Lemma find_empty_witness :
  _data (DDAList_new []) = [] /\
  find (DDAList_new []) 1000.5 (Rel (mkPpm 20)) 3 = Raise IndexError.
Proof.
  split; [reflexivity|].
  apply (find_empty (DDAList_new []) 1000.5 (Rel (mkPpm 20)) 3). reflexivity.
Defined.

(** ** [Spectrum.get_intensity]: the claims *)

(** C10.  For a spectrum with a non-empty [mz_a], a resolved window that is
    zero or negative makes [get_intensity] return 0, whatever the peaks
    are, also one exactly at the query: so does an absolute tolerance of 0
    at every [mz], and so does every ppm tolerance at [mz = 0]. *)
Theorem get_intensity_nonpositive_window (self : Spectrum) :
  mz_a self <> [] ->
  (forall mz tol, resolve tol mz <= 0 -> get_intensity self mz tol = Ok 0) /\
  (forall mz, get_intensity self mz (Abs 0) = Ok 0) /\
  (forall p, get_intensity self 0 (Rel p) = Ok 0).
Proof.
  intros Hne.
  assert (forall mz tol, resolve tol mz <= 0 ->
            get_intensity self mz tol = Ok 0) as Hgen.
  { intros mz tol Hw.
    destruct (index_most_closed_in_range id mz (mz_a self) Hne)
      as (i & m & Hi & Hm).
    unfold get_intensity. cbv zeta.
    rewrite Hi, bind_Ok, (index_Ok _ _ _ Hm), bind_Ok.
    assert (Qltb (Qabs (m - mz)) (resolve tol mz) = false) as ->.
    { apply Qltb_false. pose proof (Qabs_nonneg (m - mz)). lra. }
    reflexivity. }
  split; [exact Hgen|]. split.
  - intros mz. apply Hgen. cbn [resolve]. lra.
  - intros p. apply Hgen. cbn [resolve]. unfold Ppm_call.
    assert (_ppm p * 0 / 1000000 == 0) as -> by field. lra.
Qed.

Lemma get_intensity_nonpositive_window_witness :
  mz_a spec <> [] /\ mz_a spec !! 0%nat = Some 100 /\
  resolve (Abs 0) 100 <= 0 /\
  get_intensity spec 100 (Abs 0) = Ok 0.
Proof.
  split; [discriminate|]. split; [reflexivity|].
  assert (resolve (Abs 0) 100 <= 0) as Hw by (cbn [resolve]; lra).
  split; [exact Hw|].
  apply (proj1 (get_intensity_nonpositive_window spec ltac:(discriminate))
           100 (Abs 0) Hw).
Defined.

(** ** Tolerances: the claim *)

(** C8.  Resolving a ppm tolerance [t] at a reference value [r] gives
    [t * r / 1_000_000]; resolving an absolute tolerance gives its value,
    whatever [r]; [Ppm(10)] at 1000 is 0.01, as a rational and also in
    binary64 arithmetic (where, as in Python, the literal 0.01 stands for
    the nearest binary64 number). *)
#[warnings="-inexact-float"]
Theorem resolve_spec :
  (forall t r, resolve (Rel (mkPpm t)) r = t * r / 1000000) /\
  (forall v r, resolve (Abs v) r = v) /\
  resolve (Rel (mkPpm 10)) 1000 == 0.01 /\
  Binary64.Ppm_call 10 1000 = 0.01%float.
Proof.
  split; [reflexivity|]. split; [reflexivity|]. split; reflexivity.
Qed.

(** ** [DDAList]: the claim *)

(** C9.  For every input sequence of ions, the list held by the constructed
    [DDAList] is a permutation of the input (duplicates kept) and ascending
    by m/z.  With the input as a list object at [l] in a store [st]:
    construction allocates the sorted list as a new object, leaves the
    input and every other object of the store as they were, and whatever
    sequence of operations follows on the instance, the store, and with it
    the sorted list, stays the same. *)
Theorem DDAList_sorted_invariant (ions : list Ion) :
  _data (DDAList_new ions) ≡ₚ ions /\
  ascending Ion_mz (_data (DDAList_new ions)) /\
  forall (st : gmap Obj.loc (list Ion)) (l : Obj.loc),
    st !! l = Some ions ->
    exists self st',
      Obj.new l st = (Ok self, st') /\
      st' !! l = Some ions /\
      (forall l' xs, st !! l' = Some xs -> st' !! l' = Some xs) /\
      st' !! Obj.data_ref self = Some (_data (DDAList_new ions)) /\
      forall os, Obj.exec_all self os st' = st'.
Proof.
  split; [apply sorted_perm|]. split; [apply sorted_ascending|].
  intros st l Hl.
  destruct (new_store l ions st Hl) as (self & Hnew & Hfresh).
  exists self, (<[Obj.data_ref self := sorted Ion_mz ions]> st).
  assert (forall l' xs, st !! l' = Some xs ->
            <[Obj.data_ref self := sorted Ion_mz ions]> st !! l' = Some xs)
    as Hkeep.
  { intros l' xs Hl'. rewrite lookup_insert_ne; [exact Hl'|].
    intros E. rewrite <- E in Hl'. congruence. }
  split; [exact Hnew|]. split; [apply Hkeep; exact Hl|].
  split; [exact Hkeep|]. split.
  - rewrite lookup_insert_eq. reflexivity.
  - intros os. apply exec_all_store.
Qed.

Lemma DDAList_sorted_invariant_witness :
  ({[ 5%nat := [mkIon 3000 4; mkIon 1000 3; mkIon 1000 2] ]}
     : gmap Obj.loc (list Ion)) !! 5%nat
  = Some [mkIon 3000 4; mkIon 1000 3; mkIon 1000 2] /\
  exists self st',
    Obj.new 5%nat {[ 5%nat := [mkIon 3000 4; mkIon 1000 3; mkIon 1000 2] ]}
    = (Ok self, st') /\
    st' !! 5%nat = Some [mkIon 3000 4; mkIon 1000 3; mkIon 1000 2] /\
    (forall l' xs,
       ({[ 5%nat := [mkIon 3000 4; mkIon 1000 3; mkIon 1000 2] ]}
          : gmap Obj.loc (list Ion)) !! l' = Some xs ->
       st' !! l' = Some xs) /\
    st' !! Obj.data_ref self
    = Some (_data (DDAList_new [mkIon 3000 4; mkIon 1000 3; mkIon 1000 2])) /\
    forall os, Obj.exec_all self os st' = st'.
Proof.
  split; [apply lookup_singleton_eq|].
  apply (proj2 (proj2 (DDAList_sorted_invariant
                         [mkIon 3000 4; mkIon 1000 3; mkIon 1000 2]))).
  apply lookup_singleton_eq.
Defined.

Example DDAList_new_example :
  _data (DDAList_new [mkIon 3000 4; mkIon 1000 3; mkIon 1000 2])
  = [mkIon 1000 3; mkIon 1000 2; mkIon 3000 4].
Proof. reflexivity. Qed.

(** ** [ReporterSearcher]: the claims *)

Lemma run_step_miss self spec0 :
  find (_dda_list self) (precursor_mz spec0) (ms1_tol self)
       (precursor_charge spec0) = Ok None ->
  run_step self spec0 = Ok None.
Proof. intros H. unfold run_step. rewrite H, bind_Ok. reflexivity. Qed.

Lemma run_step_hit self spec0 ion vs :
  find (_dda_list self) (precursor_mz spec0) (ms1_tol self)
       (precursor_charge spec0) = Ok (Some ion) ->
  Forall2 (fun r v => get_intensity spec0 r (ms2_tol self) = Ok v)
          REPORTERS vs ->
  run_step self spec0 =
  Ok (Some {| rec_scan := scan spec0;
              rec_precursor_mz := Ion_mz ion;
              reporters := zip REPORTERS vs |}).
Proof.
  intros H HF. unfold run_step. rewrite H, bind_Ok.
  rewrite (dict_comp_zip _ REPORTERS vs HF REPORTERS_distinct), bind_Ok.
  reflexivity.
Qed.

(** C2.  [run] takes the spectra one at a time, in order.  After a prefix
    [pre] that ran to its end yielding [out], the next spectrum adds
    nothing when [find] on its precursor m/z and charge returns [None],
    and the rest is processed as before; when [find] returns an ion and
    [get_intensity] returns a value for each reporter, it adds exactly one
    record: the spectrum's scan, the m/z of the matched reference ion, and
    the reporters of [REPORTERS] in their order, each with the value of
    [get_intensity] at that reporter under the ms2 tolerance. *)
Theorem run_spec (self : ReporterSearcher) (pre : list Spectrum)
  (spec0 : Spectrum) (post : list Spectrum) (out : list SearchRecord) :
  run self pre = (out, None) ->
  (find (_dda_list self) (precursor_mz spec0) (ms1_tol self)
        (precursor_charge spec0) = Ok None ->
   run self (pre ++ spec0 :: post)
   = (out ++ (run self post).1, (run self post).2)) /\
  (forall ion vs,
     find (_dda_list self) (precursor_mz spec0) (ms1_tol self)
          (precursor_charge spec0) = Ok (Some ion) ->
     Forall2 (fun r v => get_intensity spec0 r (ms2_tol self) = Ok v)
             REPORTERS vs ->
     run self (pre ++ spec0 :: post)
     = (out ++ {| rec_scan := scan spec0;
                  rec_precursor_mz := Ion_mz ion;
                  reporters := zip REPORTERS vs |} :: (run self post).1,
        (run self post).2) /\
     (zip REPORTERS vs).*1 = REPORTERS).
Proof.
  intros Hpre. split.
  - intros Hmiss. rewrite (run_app self pre (spec0 :: post) out Hpre).
    cbn [run]. rewrite (run_step_miss self spec0 Hmiss). reflexivity.
  - intros ion vs Hhit HF. split.
    + rewrite (run_app self pre (spec0 :: post) out Hpre).
      cbn [run]. rewrite (run_step_hit self spec0 ion vs Hhit HF).
      destruct (run self post) as [records e]. reflexivity.
    + apply fst_zip. apply Forall2_length in HF. lia.
Qed.

Lemma run_spec_witness :
  run searcher [spec_miss] = ([], None) /\
  find (_dda_list searcher) (precursor_mz spec_miss) (ms1_tol searcher)
       (precursor_charge spec_miss) = Ok None /\
  find (_dda_list searcher) (precursor_mz spec_hit) (ms1_tol searcher)
       (precursor_charge spec_hit) = Ok (Some (mkIon 1000 3)) /\
  Forall2 (fun r v => get_intensity spec_hit r (ms2_tol searcher) = Ok v)
          REPORTERS [1500; 2500; 0; 0; 0; 0; 0; 0; 0; 0] /\
  run searcher ([spec_miss] ++ spec_miss :: [spec_hit])
  = ([] ++ (run searcher [spec_hit]).1, (run searcher [spec_hit]).2) /\
  run searcher ([spec_miss] ++ spec_hit :: [spec_miss])
  = ([] ++ {| rec_scan := scan spec_hit;
              rec_precursor_mz := Ion_mz (mkIon 1000 3);
              reporters := zip REPORTERS [1500; 2500; 0; 0; 0; 0; 0; 0; 0; 0] |}
        :: (run searcher [spec_miss]).1,
     (run searcher [spec_miss]).2) /\
  (zip REPORTERS [1500; 2500; 0; 0; 0; 0; 0; 0; 0; 0]).*1 = REPORTERS.
Proof.
  assert (run searcher [spec_miss] = ([], None)) as Hpre
    by (vm_compute; reflexivity).
  assert (find (_dda_list searcher) (precursor_mz spec_miss)
            (ms1_tol searcher) (precursor_charge spec_miss) = Ok None) as Hmiss
    by (vm_compute; reflexivity).
  assert (find (_dda_list searcher) (precursor_mz spec_hit)
            (ms1_tol searcher) (precursor_charge spec_hit)
          = Ok (Some (mkIon 1000 3))) as Hhit
    by (vm_compute; reflexivity).
  assert (Forall2 (fun r v => get_intensity spec_hit r (ms2_tol searcher) = Ok v)
            REPORTERS [1500; 2500; 0; 0; 0; 0; 0; 0; 0; 0]) as HF
    by (unfold REPORTERS; repeat (constructor; [vm_compute; reflexivity|]);
        constructor).
  split; [exact Hpre|]. split; [exact Hmiss|]. split; [exact Hhit|].
  split; [exact HF|]. split.
  - exact (proj1 (run_spec searcher [spec_miss] spec_miss [spec_hit] [] Hpre)
             Hmiss).
  - exact (proj2 (run_spec searcher [spec_miss] spec_hit [spec_miss] [] Hpre)
             (mkIon 1000 3) [1500; 2500; 0; 0; 0; 0; 0; 0; 0; 0] Hhit HF).
Defined.

(** An exception raised in an iteration ends the generator there: nothing
    is yielded for that spectrum or any later one. *)
Lemma run_raises self pre spec0 post out e :
  run self pre = (out, None) -> run_step self spec0 = Raise e ->
  run self (pre ++ spec0 :: post) = (out, Some e).
Proof.
  intros Hpre He. rewrite (run_app self pre (spec0 :: post) out Hpre).
  cbn [run]. rewrite He. cbn [fst snd]. rewrite app_nil_r. reflexivity.
Qed.

(** Construction of the searcher fails exactly when the resolved ms2
    tolerance is above 1. *)
Lemma ReporterSearcher_new_raises dda ms1 ms2 :
  ReporterSearcher_new dda ms1 ms2 = Raise ValueError <->
  1 < resolve ms2 131.138180.
Proof.
  rewrite <- check_ms2_tol_raises. unfold ReporterSearcher_new.
  destruct (_check_ms2_tol ms2) as [[]|e]; rewrite ?bind_Ok, ?bind_Raise;
    split; congruence.
Qed.

Example ReporterSearcher_new_default :
  ReporterSearcher_new dda_list (Rel (mkPpm 20)) (Rel (mkPpm 20)) = Ok searcher.
Proof. vm_compute. reflexivity. Qed.

Example ReporterSearcher_new_rejects_two :
  ReporterSearcher_new dda_list (Rel (mkPpm 20)) (Abs 2) = Raise ValueError.
Proof. vm_compute. reflexivity. Qed.

(** C3: the code at a failing input.  The least gap between consecutive
    reporters is 0.006319; an ms2 tolerance of 100 ppm resolves to a window
    above it at the largest reporter, and so does an absolute tolerance of
    0.5; with either, construction succeeds. *)
Theorem ReporterSearcher_new_accepts_wide_ms2 :
  (exists g, spec_min_gap REPORTERS = Some g /\ g == 0.006319 /\
     g < resolve (Rel (mkPpm 100)) 131.138180 /\
     g < resolve (Abs 0.5) 131.138180) /\
  max_of REPORTERS = Ok 131.138180 /\
  min_diff REPORTERS = Ok (VBool true) /\
  (forall dda ms1,
     ReporterSearcher_new dda ms1 (Rel (mkPpm 100))
     = Ok {| _dda_list := dda; ms1_tol := ms1; ms2_tol := Rel (mkPpm 100) |}) /\
  (forall dda ms1,
     ReporterSearcher_new dda ms1 (Abs 0.5)
     = Ok {| _dda_list := dda; ms1_tol := ms1; ms2_tol := Abs 0.5 |}).
Proof.
  split.
  { eexists. split; [vm_compute; reflexivity|].
    repeat split; vm_compute; reflexivity. }
  split; [exact max_of_REPORTERS|]. split; [exact min_diff_REPORTERS|].
  split; intros dda ms1; unfold ReporterSearcher_new;
    rewrite check_ms2_tol_unfold.
  - assert (Qltb 1 (resolve (Rel (mkPpm 100)) 131.138180) = false) as ->
      by (vm_compute; reflexivity).
    reflexivity.
  - assert (Qltb 1 (resolve (Abs 0.5) 131.138180) = false) as ->
      by (vm_compute; reflexivity).
    reflexivity.
Qed.

(** ** When [run] raises nothing

    With a non-empty reference list and spectra whose [mz_a] is non-empty
    and not longer than [intensity_a], every iteration returns and the
    generator runs to its end. *)

Lemma find_total self mz tol charge :
  _data self <> [] -> exists r, find self mz tol charge = Ok r.
Proof.
  intros Hne.
  destruct (index_most_closed_in_range Ion_mz mz (_data self) Hne)
    as (i & c & Hi & Hc).
  unfold find, most_closed.
  rewrite Hi, bind_Ok, (index_Ok _ _ _ Hc), bind_Ok. cbv zeta.
  destruct (_ && _); eauto.
Qed.

Lemma get_intensity_total self mz tol :
  mz_a self <> [] -> (length (mz_a self) <= length (intensity_a self))%nat ->
  exists v, get_intensity self mz tol = Ok v.
Proof.
  intros Hne Hlen.
  destruct (index_most_closed_in_range id mz (mz_a self) Hne)
    as (i & m & Hi & Hm).
  pose proof (lookup_lt_Some _ _ _ Hm) as Hlt.
  destruct (index_lt (intensity_a self) i) as (v & _ & Hv); [lia|].
  unfold get_intensity. cbv zeta.
  rewrite Hi, bind_Ok, (index_Ok _ _ _ Hm), bind_Ok.
  destruct (Qltb _ _); eauto.
Qed.

Lemma dict_comp_from_total f ks : forall d,
  (forall k, exists v, f k = Ok v) ->
  exists d', dict_comp_from f d ks = Ok d'.
Proof.
  induction ks as [|k ks IH]; intros d Hf; cbn [dict_comp_from].
  - eauto.
  - destruct (Hf k) as [v ->]. rewrite bind_Ok. apply IH. exact Hf.
Qed.

Lemma run_step_total self spec0 :
  _data (_dda_list self) <> [] -> mz_a spec0 <> [] ->
  (length (mz_a spec0) <= length (intensity_a spec0))%nat ->
  exists r, run_step self spec0 = Ok r.
Proof.
  intros Hd Hm Hlen. unfold run_step.
  destruct (find_total (_dda_list self) (precursor_mz spec0) (ms1_tol self)
              (precursor_charge spec0) Hd) as [[ion|] ->]; rewrite bind_Ok.
  - destruct (dict_comp_from_total
                (fun mz => get_intensity spec0 mz (ms2_tol self)) REPORTERS [])
      as [d Hdict].
    + intros k. apply get_intensity_total; assumption.
    + unfold dict_comp. rewrite Hdict, bind_Ok. eauto.
  - eauto.
Qed.

Lemma run_total self specs :
  _data (_dda_list self) <> [] ->
  Forall (fun sp => mz_a sp <> [] /\
                    (length (mz_a sp) <= length (intensity_a sp))%nat) specs ->
  (run self specs).2 = None.
Proof.
  intros Hd. induction 1 as [|sp specs [Hm Hlen] _ IH]; [reflexivity|].
  cbn [run].
  destruct (run_step_total self sp Hd Hm Hlen) as [[record|] ->].
  - destruct (run self specs) as [records e]. exact IH.
  - exact IH.
Qed.


(** * Further properties of the search *)

(** ** Inversion of the exception monad *)

Lemma bind_Ok_inv {A B : Type} (f : A -> result B) (m : result A) (b : B) :
  (m ≫= f) = Ok b -> exists a, m = Ok a /\ f a = Ok b.
Proof.
  destruct m as [a|e]; [|discriminate]. rewrite bind_Ok. eauto.
Qed.

Lemma index_inv {A : Type} (a : list A) i e : index a i = Ok e -> a !! i = Some e.
Proof. unfold index. destruct (a !! i); congruence. Qed.

Lemma most_closed_inv {A : Type} (key : A -> Q) x (a : list A) e :
  most_closed x a key = Ok e ->
  exists i, index_most_closed x a key = Ok i /\ a !! i = Some e.
Proof.
  unfold most_closed. intros H.
  apply bind_Ok_inv in H as (i & Hi & He). apply index_inv in He. eauto.
Qed.

Lemma nonempty_length {A : Type} (a : list A) : a <> [] -> (0 < length a)%nat.
Proof. destruct a; [congruence | simpl; lia]. Qed.

(** ** An exact hit selects the last of the equal keys *)


(** X2.  On a non-empty sequence, ascending or not, [index_most_closed]
    returns an index of the sequence and [most_closed] the element there:
    neither raises. *)
Theorem index_most_closed_valid {A : Type} (key : A -> Q) (x : Q) (a : list A) :
  a <> [] ->
  exists i e, index_most_closed x a key = Ok i /\ (i < length a)%nat /\
    a !! i = Some e /\ most_closed x a key = Ok e.
Proof.
  intros Hne.
  destruct (index_most_closed_in_range key x a Hne) as (i & e & Hi & He).
  exists i, e. split; [exact Hi|]. split; [eapply lookup_lt_Some; exact He|].
  split; [exact He|].
  unfold most_closed. rewrite Hi, bind_Ok. apply index_Ok. exact He.
Qed.

Lemma index_most_closed_valid_witness :
  [7; 1; 8; 2; 3] <> [] /\
  exists i e, index_most_closed 4 [7; 1; 8; 2; 3] id = Ok i /\
    (i < length [7; 1; 8; 2; 3])%nat /\
    [7; 1; 8; 2; 3] !! i = Some e /\ most_closed 4 [7; 1; 8; 2; 3] id = Ok e.
Proof.
  split; [discriminate|].
  apply (index_most_closed_valid id 4 [7; 1; 8; 2; 3]). discriminate.
Defined.



Example index_most_closed_duplicates :
  index_most_closed 3 [1; 3; 3; 3; 7] id = Ok 3%nat.
Proof. reflexivity. Qed.


(** ** Further properties of [DDAList.find] *)

Lemma find_inv self mz tol charge ion :
  find self mz tol charge = Ok (Some ion) ->
  most_closed mz (_data self) Ion_mz = Ok ion /\
  Qabs (Ion_mz ion - mz) <= resolve tol mz /\ Ion_charge ion = charge.
Proof.
  unfold find. intros H. apply bind_Ok_inv in H as (c & Hc & H).
  cbv zeta in H.
  destruct (Qleb (Qabs (Ion_mz c - mz)) (resolve tol mz)) eqn:Hw;
    [|discriminate].
  destruct (Z.eqb_spec (Ion_charge c) charge) as [Hq|Hq]; [|discriminate].
  cbn [andb] in H. injection H as <-.
  apply Qleb_true in Hw. repeat split; assumption.
Qed.

(** X4.  Whatever the list (ascending or not), an ion that [find] returns
    is an ion of the list, has the requested charge and lies within the
    resolved tolerance of the query, bounds included. *)
Theorem find_sound (self : DDAList) (mz : Q) (tol : tolerance) (charge : Z)
  (ion : Ion) :
  find self mz tol charge = Ok (Some ion) ->
  ion ∈ _data self /\ Ion_charge ion = charge /\
  Qabs (Ion_mz ion - mz) <= resolve tol mz.
Proof.
  intros H. apply find_inv in H as (Hmc & Hw & Hq).
  apply most_closed_inv in Hmc as (i & _ & Hi).
  split; [eapply list_elem_of_lookup_2; exact Hi|]. split; assumption.
Qed.

Lemma find_sound_witness :
  find dda_list 1000.5 (Rel (mkPpm 1000)) 3 = Ok (Some (mkIon 1000 3)) /\
  mkIon 1000 3 ∈ _data dda_list /\ Ion_charge (mkIon 1000 3) = 3%Z /\
  Qabs (Ion_mz (mkIon 1000 3) - 1000.5) <= resolve (Rel (mkPpm 1000)) 1000.5.
Proof.
  assert (find dda_list 1000.5 (Rel (mkPpm 1000)) 3 = Ok (Some (mkIon 1000 3)))
    as H by (vm_compute; reflexivity).
  split; [exact H|].
  apply (find_sound dda_list 1000.5 (Rel (mkPpm 1000)) 3 (mkIon 1000 3) H).
Defined.

(** X5.  The candidate does not depend on the tolerance: an ion found with
    one tolerance is found again, the same ion, with any tolerance that
    resolves to a window at least as wide at the query. *)
Theorem find_wider_tolerance (self : DDAList) (mz : Q) (tol tol' : tolerance)
  (charge : Z) (ion : Ion) :
  find self mz tol charge = Ok (Some ion) ->
  resolve tol mz <= resolve tol' mz ->
  find self mz tol' charge = Ok (Some ion).
Proof.
  intros H Hw. apply find_inv in H as (Hmc & Hin & Hq).
  unfold find. rewrite Hmc, bind_Ok. cbv zeta.
  assert (Qleb (Qabs (Ion_mz ion - mz)) (resolve tol' mz) = true) as ->
    by (apply Qleb_true; lra).
  rewrite (proj2 (Z.eqb_eq _ _) Hq). reflexivity.
Qed.

Lemma find_wider_tolerance_witness :
  find dda_list 1000.5 (Abs 1) 3 = Ok (Some (mkIon 1000 3)) /\
  resolve (Abs 1) 1000.5 <= resolve (Rel (mkPpm 2000)) 1000.5 /\
  find dda_list 1000.5 (Rel (mkPpm 2000)) 3 = Ok (Some (mkIon 1000 3)).
Proof.
  assert (find dda_list 1000.5 (Abs 1) 3 = Ok (Some (mkIon 1000 3))) as H
    by (vm_compute; reflexivity).
  assert (resolve (Abs 1) 1000.5 <= resolve (Rel (mkPpm 2000)) 1000.5) as Hw
    by (vm_compute; discriminate).
  split; [exact H|]. split; [exact Hw|].
  apply (find_wider_tolerance dda_list 1000.5 (Abs 1) (Rel (mkPpm 2000)) 3
           (mkIon 1000 3) H Hw).
Defined.

(** X6.  [find] raises exactly when the reference list is empty, and then
    it is [IndexError]: on any non-empty list, ascending or not, it returns
    an ion or [None]. *)
Theorem find_raises_iff_empty (self : DDAList) (mz : Q) (tol : tolerance)
  (charge : Z) :
  (find self mz tol charge = Raise IndexError <-> _data self = []) /\
  (forall e, find self mz tol charge = Raise e -> e = IndexError).
Proof.
  assert (_data self = [] -> find self mz tol charge = Raise IndexError)
    as Hempty.
  { intros Hd. unfold find. rewrite Hd.
    rewrite (proj2 (most_closed_nil Ion_mz mz)). apply bind_Raise. }
  assert (forall e, find self mz tol charge = Raise e -> _data self = [])
    as Hraise.
  { intros e He. destruct (_data self) as [|c l] eqn:Hd; [reflexivity|].
    destruct (find_total self mz tol charge) as [r Hr]; [rewrite Hd; discriminate|].
    congruence. }
  split; [split; [apply Hraise | exact Hempty]|].
  intros e He. pose proof (Hempty (Hraise e He)). congruence.
Qed.

Lemma find_raises_iff_empty_witness :
  _data (DDAList_new []) = [] /\
  find (DDAList_new []) 1000 (Abs 1) 3 = Raise IndexError.
Proof.
  split; [reflexivity|].
  apply (proj2 (proj1 (find_raises_iff_empty (DDAList_new []) 1000 (Abs 1) 3))).
  reflexivity.
Defined.

(** ** Further properties of [Spectrum.get_intensity] *)

Lemma get_intensity_nil self mz tol :
  mz_a self = [] -> get_intensity self mz tol = Raise IndexError.
Proof.
  intros Hm. unfold get_intensity. cbv zeta. rewrite Hm.
  rewrite (proj1 (most_closed_nil id mz)), bind_Ok, index_nil.
  apply bind_Raise.
Qed.

(** X7.  On a spectrum without fragment peaks [get_intensity] raises
    [IndexError], whatever the query and the tolerance (index 0 is read
    from the empty [mz_a]); on a spectrum with peaks it raises only when
    the selected peak is within the window and [intensity_a] is too short
    to hold its index. *)
Theorem get_intensity_no_peaks (self : Spectrum) (mz : Q) (tol : tolerance) :
  (mz_a self = [] -> get_intensity self mz tol = Raise IndexError) /\
  (mz_a self <> [] -> forall e, get_intensity self mz tol = Raise e ->
     exists i m, index_most_closed mz (mz_a self) id = Ok i /\
       mz_a self !! i = Some m /\ Qabs (m - mz) < resolve tol mz /\
       (length (intensity_a self) <= i)%nat /\ e = IndexError).
Proof.
  split; [apply get_intensity_nil|].
  intros Hne e He.
  destruct (index_most_closed_in_range id mz (mz_a self) Hne)
    as (i & m & Hi & Hm).
  exists i, m. split; [exact Hi|]. split; [exact Hm|].
  unfold get_intensity in He. cbv zeta in He.
  rewrite Hi, bind_Ok, (index_Ok _ _ _ Hm), bind_Ok in He.
  destruct (Qltb (Qabs (m - mz)) (resolve tol mz)) eqn:Hw; [|discriminate].
  apply Qltb_true in Hw. split; [exact Hw|].
  unfold index in He.
  destruct (intensity_a self !! i) eqn:Hv; [discriminate|].
  apply lookup_ge_None in Hv. split; [exact Hv | congruence].
Qed.

Lemma get_intensity_no_peaks_witness :
  mz_a (mkSpectrum 5 1000 3 [] []) = [] /\
  get_intensity (mkSpectrum 5 1000 3 [] []) 126.127726 (Rel (mkPpm 20))
  = Raise IndexError.
Proof.
  split; [reflexivity|].
  apply (proj1 (get_intensity_no_peaks (mkSpectrum 5 1000 3 [] [])
                  126.127726 (Rel (mkPpm 20)))).
  reflexivity.
Defined.

(** X8.  On a spectrum whose [mz_a] is non-empty and not longer than
    [intensity_a] (in any order), [get_intensity] returns either 0 or one
    of the values of [intensity_a]. *)
Theorem get_intensity_value (self : Spectrum) (mz : Q) (tol : tolerance) :
  mz_a self <> [] -> (length (mz_a self) <= length (intensity_a self))%nat ->
  exists v, get_intensity self mz tol = Ok v /\
    (v = 0 \/ v ∈ intensity_a self).
Proof.
  intros Hne Hlen.
  destruct (index_most_closed_in_range id mz (mz_a self) Hne)
    as (i & m & Hi & Hm).
  pose proof (lookup_lt_Some _ _ _ Hm) as Hlt.
  destruct (index_lt (intensity_a self) i) as (v & Hv & Hiv); [lia|].
  unfold get_intensity. cbv zeta.
  rewrite Hi, bind_Ok, (index_Ok _ _ _ Hm), bind_Ok.
  destruct (Qltb _ _).
  - exists v. split; [exact Hiv|]. right.
    eapply list_elem_of_lookup_2. exact Hv.
  - exists 0. split; [reflexivity|]. left. reflexivity.
Qed.

Lemma get_intensity_value_witness :
  mz_a spec_hit <> [] /\
  (length (mz_a spec_hit) <= length (intensity_a spec_hit))%nat /\
  exists v, get_intensity spec_hit 127.124761 (Rel (mkPpm 20)) = Ok v /\
    (v = 0 \/ v ∈ intensity_a spec_hit).
Proof.
  split; [discriminate|]. split; [cbn; lia|].
  apply (get_intensity_value spec_hit 127.124761 (Rel (mkPpm 20)));
    [discriminate | cbn; lia].
Defined.



Example get_intensity_duplicate_peak :
  get_intensity (mkSpectrum 9 1000 3 [100; 200; 200; 300] [1; 2; 3; 4])
                200 (Rel (mkPpm 10)) = Ok 3.
Proof. vm_compute. reflexivity. Qed.


(** ** Further properties of [DDAList] construction *)

Lemma sorted_of_ascending {A : Type} (key : A -> Q) (l : list A) :
  ascending key l -> sorted key l = l.
Proof.
  unfold ascending. induction 1 as [|x l Hs IH Hhd]; [reflexivity|].
  cbn [sorted]. rewrite IH.
  destruct Hhd as [|y l' Hxy]; [reflexivity|].
  cbn [insert_by].
  assert (Qltb (key y) (key x) = false) as ->
    by (apply Qltb_false; exact Hxy).
  reflexivity.
Qed.

(** X11.  Construction keeps the number of ions, and building a [DDAList]
    from the list of another one gives the same list again: sorting is only
    done once. *)
Theorem DDAList_new_idempotent (ions : list Ion) :
  length (_data (DDAList_new ions)) = length ions /\
  DDAList_new (_data (DDAList_new ions)) = DDAList_new ions.
Proof.
  split.
  - apply Permutation_length. apply sorted_perm.
  - unfold DDAList_new. cbn [_data]. f_equal.
    apply sorted_of_ascending. apply sorted_ascending.
Qed.

(** ** Further properties of the validator *)

(** X13.  Construction of a [ReporterSearcher] raises [ValueError] exactly
    when the ms2 tolerance, resolved at the largest reporter 131.138180, is
    above 1; otherwise it returns the searcher holding the three arguments.
    The ms1 tolerance and the reference list are not examined. *)
Theorem ReporterSearcher_new_threshold (dda : DDAList) (ms1 ms2 : tolerance) :
  (ReporterSearcher_new dda ms1 ms2 = Raise ValueError <->
     1 < resolve ms2 131.138180) /\
  (ReporterSearcher_new dda ms1 ms2
   = Ok {| _dda_list := dda; ms1_tol := ms1; ms2_tol := ms2 |} <->
     resolve ms2 131.138180 <= 1).
Proof.
  unfold ReporterSearcher_new. rewrite check_ms2_tol_unfold.
  destruct (Qltb 1 (resolve ms2 131.138180)) eqn:Hc;
    [apply Qltb_true in Hc | apply Qltb_false in Hc];
    rewrite ?bind_Ok, ?bind_Raise.
  - split; split.
    + intros _. exact Hc.
    + reflexivity.
    + discriminate.
    + intros H. lra.
  - split; split.
    + discriminate.
    + intros H. lra.
    + intros _. exact Hc.
    + reflexivity.
Qed.

(** ** Further properties of [ReporterSearcher.run] *)

Lemma dict_comp_from_inv f ks : forall d d',
  dict_comp_from f d ks = Ok d' ->
  exists vs, Forall2 (fun k v => f k = Ok v) ks vs.
Proof.
  induction ks as [|k ks IH]; intros d d' H.
  - exists []. constructor.
  - cbn [dict_comp_from] in H. apply bind_Ok_inv in H as (v & Hv & H).
    destruct (IH _ _ H) as [vs HF]. exists (v :: vs). constructor; assumption.
Qed.

Lemma run_step_inv self sp r :
  run_step self sp = Ok (Some r) ->
  exists ion vs,
    find (_dda_list self) (precursor_mz sp) (ms1_tol self)
         (precursor_charge sp) = Ok (Some ion) /\
    Forall2 (fun k v => get_intensity sp k (ms2_tol self) = Ok v)
            REPORTERS vs /\
    r = {| rec_scan := scan sp; rec_precursor_mz := Ion_mz ion;
           reporters := zip REPORTERS vs |}.
Proof.
  unfold run_step. intros H. apply bind_Ok_inv in H as ([ion|] & Hf & H);
    [|discriminate].
  apply bind_Ok_inv in H as (d & Hd & H).
  destruct (dict_comp_from_inv _ _ _ _ Hd) as [vs HF].
  rewrite (dict_comp_zip _ REPORTERS vs HF REPORTERS_distinct) in Hd.
  exists ion, vs. split; [exact Hf|]. split; [exact HF|]. congruence.
Qed.

Lemma dict_comp_REPORTERS_raise f e :
  f 126.127726 = Raise e -> dict_comp f REPORTERS = Raise e.
Proof.
  intros H. unfold dict_comp, REPORTERS. cbn [dict_comp_from].
  rewrite H. reflexivity.
Qed.

Lemma run_app_raise self l1 l2 out e :
  run self l1 = (out, Some e) -> run self (l1 ++ l2) = (out, Some e).
Proof.
  revert out. induction l1 as [|sp l1 IH]; intros out H; [discriminate|].
  cbn [app run] in *.
  destruct (run_step self sp) as [[record|]|e'].
  - destruct (run self l1) as [records e1] eqn:E.
    injection H as <- ->. rewrite (IH records eq_refl). reflexivity.
  - apply IH. exact H.
  - exact H.
Qed.

(** X14.  The scans of the records that [run] yields are a subsequence of
    the scans of the spectra it is given: records come in the order of the
    spectra, at most one per spectrum, also when the run ends by an
    exception. *)
Theorem run_scans_in_order (self : ReporterSearcher) (specs : list Spectrum) :
  sublist (rec_scan <$> (run self specs).1) (scan <$> specs).
Proof.
  induction specs as [|sp specs IH]; [constructor|].
  cbn [run]. destruct (run_step self sp) as [[r|]|e] eqn:Hstep.
  - apply run_step_inv in Hstep as (ion & vs & _ & _ & ->).
    destruct (run self specs) as [records e]. cbn [fst fmap list_fmap] in *.
    apply sublist_skip. exact IH.
  - apply sublist_cons. exact IH.
  - apply sublist_nil_l.
Qed.

(** X15.  Every record that [run] yields comes from one of the spectra: it
    carries that spectrum's scan; its precursor m/z is the m/z of an ion of
    the reference list that has the spectrum's precursor charge and lies
    within the ms1 tolerance, resolved at the observed precursor m/z, of
    it; and its reporters are those of [REPORTERS], in order, each with
    the value [get_intensity] returns for it under the ms2 tolerance. *)
Theorem run_record_origin (self : ReporterSearcher) (specs : list Spectrum)
  (r : SearchRecord) :
  r ∈ (run self specs).1 ->
  exists sp ion vs,
    sp ∈ specs /\ ion ∈ _data (_dda_list self) /\
    Ion_charge ion = precursor_charge sp /\
    Qabs (Ion_mz ion - precursor_mz sp)
    <= resolve (ms1_tol self) (precursor_mz sp) /\
    Forall2 (fun k v => get_intensity sp k (ms2_tol self) = Ok v)
            REPORTERS vs /\
    r = {| rec_scan := scan sp; rec_precursor_mz := Ion_mz ion;
           reporters := zip REPORTERS vs |}.
Proof.
  induction specs as [|sp specs IH]; cbn [run].
  - intros H. apply elem_of_nil in H. contradiction.
  - destruct (run_step self sp) as [[r0|]|e] eqn:Hstep.
    + destruct (run self specs) as [records e] eqn:E. cbn [fst] in *.
      intros H. apply elem_of_cons in H as [->|H].
      * apply run_step_inv in Hstep as (ion & vs & Hf & HF & ->).
        apply find_inv in Hf as (Hmc & Hw & Hq).
        apply most_closed_inv in Hmc as (i & _ & Hi).
        exists sp, ion, vs. split; [apply elem_of_cons; left; reflexivity|].
        split; [eapply list_elem_of_lookup_2; exact Hi|].
        repeat split; assumption.
      * destruct (IH H) as (sp' & ion & vs & Hsp & Hrest).
        exists sp', ion, vs. split; [apply elem_of_cons; right; exact Hsp|].
        exact Hrest.
    + intros H. destruct (IH H) as (sp' & ion & vs & Hsp & Hrest).
      exists sp', ion, vs. split; [apply elem_of_cons; right; exact Hsp|].
      exact Hrest.
    + intros H. apply elem_of_nil in H. contradiction.
Qed.

Lemma run_record_origin_witness :
  {| rec_scan := 17; rec_precursor_mz := 1000;
     reporters := zip REPORTERS [1500; 2500; 0; 0; 0; 0; 0; 0; 0; 0] |}
  ∈ (run searcher [spec_miss; spec_hit; spec_miss]).1 /\
  exists sp ion vs,
    sp ∈ [spec_miss; spec_hit; spec_miss] /\
    ion ∈ _data (_dda_list searcher) /\
    Ion_charge ion = precursor_charge sp /\
    Qabs (Ion_mz ion - precursor_mz sp)
    <= resolve (ms1_tol searcher) (precursor_mz sp) /\
    Forall2 (fun k v => get_intensity sp k (ms2_tol searcher) = Ok v)
            REPORTERS vs /\
    {| rec_scan := 17; rec_precursor_mz := 1000;
       reporters := zip REPORTERS [1500; 2500; 0; 0; 0; 0; 0; 0; 0; 0] |}
    = {| rec_scan := scan sp; rec_precursor_mz := Ion_mz ion;
         reporters := zip REPORTERS vs |}.
Proof.
  assert ({| rec_scan := 17; rec_precursor_mz := 1000;
             reporters := zip REPORTERS [1500; 2500; 0; 0; 0; 0; 0; 0; 0; 0] |}
          ∈ (run searcher [spec_miss; spec_hit; spec_miss]).1) as H
    by (rewrite run_end_to_end; apply list_elem_of_singleton; reflexivity).
  split; [exact H|].
  apply (run_record_origin searcher [spec_miss; spec_hit; spec_miss] _ H).
Defined.

(** X16.  With an empty reference list, [run] ends with [IndexError] at the
    first spectrum and yields nothing; without spectra it just ends. *)
Theorem run_empty_reference (self : ReporterSearcher) (sp : Spectrum)
  (rest : list Spectrum) :
  _data (_dda_list self) = [] ->
  run self [] = ([], None) /\
  run self (sp :: rest) = ([], Some IndexError).
Proof.
  intros Hd. split; [reflexivity|].
  cbn [run]. unfold run_step, find. rewrite Hd.
  rewrite (proj2 (most_closed_nil Ion_mz (precursor_mz sp))).
  rewrite !bind_Raise. reflexivity.
Qed.

Lemma run_empty_reference_witness :
  _data (_dda_list (mkReporterSearcher (DDAList_new []) (Abs 1) (Abs 1))) = [] /\
  run (mkReporterSearcher (DDAList_new []) (Abs 1) (Abs 1)) [] = ([], None) /\
  run (mkReporterSearcher (DDAList_new []) (Abs 1) (Abs 1)) [spec_hit; spec_miss]
  = ([], Some IndexError).
Proof.
  split; [reflexivity|].
  apply (run_empty_reference
           (mkReporterSearcher (DDAList_new []) (Abs 1) (Abs 1))
           spec_hit [spec_miss]).
  reflexivity.
Defined.

(** X17.  A spectrum without fragment peaks whose precursor matches a
    reference ion ends the run with [IndexError]: the records of the
    spectra before it have been yielded, none is yielded for it or for any
    spectrum after it. *)
Theorem run_matched_without_peaks (self : ReporterSearcher)
  (pre : list Spectrum) (sp : Spectrum) (post : list Spectrum)
  (out : list SearchRecord) :
  run self pre = (out, None) ->
  is_matched self sp = true -> mz_a sp = [] ->
  run self (pre ++ sp :: post) = (out, Some IndexError).
Proof.
  intros Hpre Hm Hmz. rewrite (run_app self pre (sp :: post) out Hpre).
  cbn [run]. unfold run_step. unfold is_matched in Hm.
  destruct (find _ _ _ _) as [[ion|]|e]; try discriminate.
  rewrite bind_Ok.
  rewrite (dict_comp_REPORTERS_raise _ IndexError)
    by (apply get_intensity_nil; exact Hmz).
  rewrite bind_Raise. cbn [fst snd]. rewrite app_nil_r. reflexivity.
Qed.

Lemma run_matched_without_peaks_witness :
  run searcher [spec_hit] =
    ([ {| rec_scan := 17; rec_precursor_mz := 1000;
          reporters := zip REPORTERS [1500; 2500; 0; 0; 0; 0; 0; 0; 0; 0] |} ],
     None) /\
  is_matched searcher (mkSpectrum 19 2000 3 [] []) = true /\
  mz_a (mkSpectrum 19 2000 3 [] []) = [] /\
  run searcher ([spec_hit] ++ mkSpectrum 19 2000 3 [] [] :: [spec_hit]) =
    ([ {| rec_scan := 17; rec_precursor_mz := 1000;
          reporters := zip REPORTERS [1500; 2500; 0; 0; 0; 0; 0; 0; 0; 0] |} ],
     Some IndexError).
Proof.
  assert (run searcher [spec_hit] =
    ([ {| rec_scan := 17; rec_precursor_mz := 1000;
          reporters := zip REPORTERS [1500; 2500; 0; 0; 0; 0; 0; 0; 0; 0] |} ],
     None)) as Hpre by (vm_compute; reflexivity).
  assert (is_matched searcher (mkSpectrum 19 2000 3 [] []) = true) as Hm
    by (vm_compute; reflexivity).
  split; [exact Hpre|]. split; [exact Hm|]. split; [reflexivity|].
  apply (run_matched_without_peaks searcher [spec_hit]
           (mkSpectrum 19 2000 3 [] []) [spec_hit] _ Hpre Hm).
  reflexivity.
Defined.

(** X18.  With a non-empty reference list and spectra whose [mz_a] is
    non-empty and not longer than [intensity_a], [run] raises nothing and
    yields exactly one record for each spectrum whose precursor [find]
    matches, in the order of the spectra: the scans of the records are the
    scans of the matched spectra. *)
Theorem run_well_formed (self : ReporterSearcher) (specs : list Spectrum) :
  _data (_dda_list self) <> [] ->
  Forall (fun sp => mz_a sp <> [] /\
                    (length (mz_a sp) <= length (intensity_a sp))%nat) specs ->
  (run self specs).2 = None /\
  rec_scan <$> (run self specs).1 = scan <$> filter (is_matched self) specs.
Proof.
  intros Hd. induction 1 as [|sp specs [Hm Hlen] _ [IHe IHs]];
    [split; reflexivity|].
  cbn [run].
  destruct (run_step_total self sp Hd Hm Hlen) as [[r|] Hstep]; rewrite Hstep.
  - destruct (run_step_inv self sp r Hstep) as (ion & vs & Hf & _ & ->).
    assert (is_matched self sp = true) as Hy
      by (unfold is_matched; rewrite Hf; reflexivity).
    rewrite filter_cons_True by (rewrite Hy; exact I).
    destruct (run self specs) as [records e]. cbn [fst snd] in *.
    split; [exact IHe|]. cbn [fmap list_fmap]. cbn [fmap] in IHs.
    rewrite IHs. reflexivity.
  - assert (is_matched self sp = false) as Hn.
    { unfold is_matched. unfold run_step in Hstep.
      destruct (find _ _ _ _) as [[ion|]|e]; try reflexivity.
      rewrite bind_Ok in Hstep.
      destruct (dict_comp _ _); discriminate. }
    rewrite filter_cons_False by (rewrite Hn; exact id).
    split; assumption.
Qed.

Lemma run_well_formed_witness :
  _data (_dda_list searcher) <> [] /\
  Forall (fun sp => mz_a sp <> [] /\
                    (length (mz_a sp) <= length (intensity_a sp))%nat)
         [spec_miss; spec_hit; spec] /\
  (run searcher [spec_miss; spec_hit; spec]).2 = None /\
  rec_scan <$> (run searcher [spec_miss; spec_hit; spec]).1
  = scan <$> filter (is_matched searcher) [spec_miss; spec_hit; spec].
Proof.
  assert (Forall (fun sp => mz_a sp <> [] /\
                    (length (mz_a sp) <= length (intensity_a sp))%nat)
            [spec_miss; spec_hit; spec]) as HF
    by (repeat constructor; try discriminate; cbn; lia).
  split; [discriminate|]. split; [exact HF|].
  apply (run_well_formed searcher [spec_miss; spec_hit; spec]);
    [discriminate | exact HF].
Defined.

(** X19.  Running over two batches of spectra one after the other: if the
    first batch runs to its end, the result is its records followed by the
    run over the second batch; if the first batch ends by an exception,
    the second batch is not looked at. *)
Theorem run_concat (self : ReporterSearcher) (l1 l2 : list Spectrum) :
  (forall out, run self l1 = (out, None) ->
     run self (l1 ++ l2) = (out ++ (run self l2).1, (run self l2).2)) /\
  (forall out e, run self l1 = (out, Some e) ->
     run self (l1 ++ l2) = (out, Some e)).
Proof.
  split.
  - intros out H. apply run_app. exact H.
  - intros out e H. apply run_app_raise. exact H.
Qed.

Lemma run_concat_witness :
  run searcher [spec_miss; spec_hit] = ((run searcher [spec_hit]).1, None) /\
  run searcher ([spec_miss; spec_hit] ++ [spec_hit; spec_miss])
  = ((run searcher [spec_hit]).1 ++ (run searcher [spec_hit; spec_miss]).1,
     (run searcher [spec_hit; spec_miss]).2).
Proof.
  assert (run searcher [spec_miss; spec_hit]
          = ((run searcher [spec_hit]).1, None)) as H
    by (vm_compute; reflexivity).
  split; [exact H|].
  apply (proj1 (run_concat searcher [spec_miss; spec_hit]
                  [spec_hit; spec_miss]) _ H).
Defined.

(** * The functions around the search *)

(** ** [distin_files] *)

(** X20.  [distin_files] does not depend on the order of its two arguments;
    what it returns is the two files, the one with suffix [.mgf] first and
    the one with suffix [.csv] second; and it raises [ValueError] exactly
    when the suffixes are not [.mgf] and [.csv] in one order or the
    other. *)
Theorem distin_files_spec {path : Type} (suffix : path -> string)
  (file1 file2 : path) :
  distin_files suffix file1 file2 = distin_files suffix file2 file1 /\
  (forall m c, distin_files suffix file1 file2 = Ok (m, c) ->
     suffix m = ".mgf"%string /\ suffix c = ".csv"%string /\
     ((m = file1 /\ c = file2) \/ (m = file2 /\ c = file1))) /\
  (distin_files suffix file1 file2 = Raise ValueError <->
     ~ ((suffix file1 = ".mgf"%string /\ suffix file2 = ".csv"%string) \/
        (suffix file1 = ".csv"%string /\ suffix file2 = ".mgf"%string))).
Proof.
  unfold distin_files.
  destruct (String.eqb_spec (suffix file1) ".mgf") as [H1m|H1m];
    destruct (String.eqb_spec (suffix file2) ".csv") as [H2c|H2c];
    destruct (String.eqb_spec (suffix file1) ".csv") as [H1c|H1c];
    destruct (String.eqb_spec (suffix file2) ".mgf") as [H2m|H2m];
    cbn [andb];
    try (rewrite H1m in H1c; discriminate H1c);
    try (rewrite H2m in H2c; discriminate H2c);
    (split; [reflexivity|]); split;
    try (intros m c H; injection H as <- <-; tauto);
    try (intros m c H; discriminate H);
    try (split; [discriminate | intros H; exfalso; apply H; tauto]);
    try (split; [intros _ | reflexivity]; intros [[? ?]|[? ?]]; congruence).
Qed.

Lemma distin_files_spec_witness :
  distin_files snd ("list", ".csv")%string ("run1", ".mgf")%string
  = Ok (("run1", ".mgf")%string, ("list", ".csv")%string) /\
  snd ("run1", ".mgf")%string = ".mgf"%string /\
  snd ("list", ".csv")%string = ".csv"%string /\
  ((("run1", ".mgf")%string = ("list", ".csv")%string /\
    ("list", ".csv")%string = ("run1", ".mgf")%string) \/
   (("run1", ".mgf")%string = ("run1", ".mgf")%string /\
    ("list", ".csv")%string = ("list", ".csv")%string)).
Proof.
  split; [reflexivity|].
  apply (proj1 (proj2 (distin_files_spec snd ("list", ".csv")%string
                         ("run1", ".mgf")%string))).
  reflexivity.
Defined.

(** Paths given as stem and suffix. *)
Example distin_files_orders :
  distin_files snd ("run1", ".mgf")%string ("list", ".csv")%string
  = Ok (("run1", ".mgf")%string, ("list", ".csv")%string) /\
  distin_files snd ("list", ".csv")%string ("run1", ".mgf")%string
  = Ok (("run1", ".mgf")%string, ("list", ".csv")%string) /\
  distin_files snd ("run1", ".MGF")%string ("list", ".csv")%string
  = Raise ValueError /\
  distin_files snd ("a", ".mgf")%string ("b", ".mgf")%string
  = Raise ValueError.
Proof. repeat split. Qed.

(** ** [DDAList.from_skyline_csv] *)

Lemma mapM_Ok {A B : Type} (f : A -> result B) (l : list A) (ks : list B) :
  mapM f l = Ok ks <-> Forall2 (fun x y => f x = Ok y) l ks.
Proof.
  revert ks. induction l as [|x l IH]; intros ks; cbn [mapM].
  - split.
    + intros H. apply Ok_inj in H. subst ks. constructor.
    + intros H. inversion H. reflexivity.
  - split.
    + intros H. apply bind_Ok_inv in H as (y & Hy & H).
      apply bind_Ok_inv in H as (k & Hk & H). apply Ok_inj in H. subst ks.
      constructor; [exact Hy | apply IH; exact Hk].
    + intros H. inversion H as [|? y ? k Hy Hk]; subst.
      rewrite Hy, bind_Ok. rewrite (proj2 (IH k) Hk), bind_Ok. reflexivity.
Qed.

Lemma mapM_Raise {A B : Type} (f : A -> result B) good ks bad rest e :
  Forall2 (fun x y => f x = Ok y) good ks -> f bad = Raise e ->
  mapM f (good ++ bad :: rest) = Raise e.
Proof.
  intros HF Hbad. induction HF as [|x y good ks Hx _ IH]; cbn [app mapM].
  - rewrite Hbad. reflexivity.
  - rewrite Hx, bind_Ok, IH. reflexivity.
Qed.

Section ReaderFacts.
Context (to_float : string -> result Q) (to_int : string -> result Z).

Lemma Ion_of_row_Ok row ion :
  Ion_of_row to_float to_int row = Ok ion <-> row_ion to_float to_int row ion.
Proof.
  unfold Ion_of_row, row_ion. split.
  - intros H. destruct row as [|mz [|charge rest]]; try discriminate.
    apply bind_Ok_inv in H as (m & Hm & H).
    apply bind_Ok_inv in H as (c & Hc & H). apply Ok_inj in H. subst ion.
    exists mz, charge, rest. repeat split; assumption.
  - intros (mz & charge & rest & -> & Hm & Hc).
    rewrite Hm, bind_Ok, Hc, bind_Ok. destruct ion; reflexivity.
Qed.

Lemma Ion_of_row_short row :
  (length row < 2)%nat -> Ion_of_row to_float to_int row = Raise ValueError.
Proof.
  destruct row as [|mz [|charge rest]]; cbn [length]; intros H;
    [reflexivity | reflexivity | lia].
Qed.

Lemma rows_ions rows ions :
  Forall2 (fun r i => Ion_of_row to_float to_int r = Ok i) rows ions <->
  Forall2 (row_ion to_float to_int) rows ions.
Proof.
  split; intros H; eapply Forall2_impl; try exact H;
    intros r i Hri; apply Ion_of_row_Ok; exact Hri.
Qed.
End ReaderFacts.

(** X21.  What [from_skyline_csv] loads.  The first row is dropped unread.
    If loading returns, every further row has at least two cells, the
    first two convert to the m/z and charge of an ion, and the list of the
    result holds those ions, one per row, ascending by m/z.  Conversely,
    rows of that kind always load, to the [DDAList] of their ions. *)
Theorem from_skyline_csv_loads (to_float : string -> result Q)
  (to_int : string -> result Z) (header : list string)
  (rows : list (list string)) :
  (forall d, from_skyline_csv to_float to_int (header :: rows) = Return d ->
     exists ions,
       Forall2 (row_ion to_float to_int) rows ions /\
       _data d ≡ₚ ions /\ ascending Ion_mz (_data d) /\
       length (_data d) = length rows) /\
  (forall ions, Forall2 (row_ion to_float to_int) rows ions ->
     from_skyline_csv to_float to_int (header :: rows)
     = Return (DDAList_new ions)).
Proof.
  split.
  - intros d H. cbn [from_skyline_csv] in H.
    destruct (mapM (Ion_of_row to_float to_int) rows) as [ions|e] eqn:E;
      [|discriminate].
    injection H as <-. apply mapM_Ok in E.
    exists ions. split; [apply rows_ions; exact E|].
    split; [apply sorted_perm|]. split; [apply sorted_ascending|].
    cbn [DDAList_new _data].
    rewrite (Permutation_length (sorted_perm Ion_mz ions)).
    symmetry. eapply Forall2_length. exact E.
  - intros ions H. apply rows_ions in H. apply mapM_Ok in H.
    cbn [from_skyline_csv]. rewrite H. reflexivity.
Qed.

Lemma from_skyline_csv_loads_witness :
  Forall2 (row_ion float_of_digits int_of_digits)
    [["2000"; "3"; "PEPTIDE"]; ["1000"; "2"]]%string
    [mkIon (inject_Z 2000) 3; mkIon (inject_Z 1000) 2] /\
  from_skyline_csv float_of_digits int_of_digits
    [["Precursor Mz"; "Precursor Charge"; "Peptide"];
     ["2000"; "3"; "PEPTIDE"]; ["1000"; "2"]]%string
  = Return (DDAList_new [mkIon (inject_Z 2000) 3; mkIon (inject_Z 1000) 2]).
Proof.
  assert (Forall2 (row_ion float_of_digits int_of_digits)
            [["2000"; "3"; "PEPTIDE"]; ["1000"; "2"]]%string
            [mkIon (inject_Z 2000) 3; mkIon (inject_Z 1000) 2]) as HF.
  { repeat constructor.
    - exists "2000"%string, "3"%string, ["PEPTIDE"%string]. repeat split.
    - exists "1000"%string, "2"%string, []. repeat split. }
  split; [exact HF|].
  apply (proj2 (from_skyline_csv_loads float_of_digits int_of_digits
                  ["Precursor Mz"; "Precursor Charge"; "Peptide"]%string
                  [["2000"; "3"; "PEPTIDE"]; ["1000"; "2"]]%string) _ HF).
Defined.

(** X22.  How [from_skyline_csv] fails.  Without any row it raises
    [StopIteration].  A row with fewer than two cells, an empty row
    included, raises [ValueError] when the rows before it load.  The
    content of the first row never matters. *)
Theorem from_skyline_csv_errors (to_float : string -> result Q)
  (to_int : string -> result Z) :
  from_skyline_csv to_float to_int [] = Throw StopIteration /\
  (forall header good ions bad rest,
     Forall2 (row_ion to_float to_int) good ions -> (length bad < 2)%nat ->
     from_skyline_csv to_float to_int (header :: good ++ bad :: rest)
     = Throw (Std ValueError)) /\
  (forall header header' rows,
     from_skyline_csv to_float to_int (header :: rows)
     = from_skyline_csv to_float to_int (header' :: rows)).
Proof.
  split; [reflexivity|]. split; [|reflexivity].
  intros header good ions bad rest HF Hbad. cbn [from_skyline_csv].
  apply rows_ions in HF.
  rewrite (mapM_Raise _ good ions bad rest ValueError HF
             (Ion_of_row_short to_float to_int bad Hbad)).
  reflexivity.
Qed.

Lemma from_skyline_csv_errors_witness :
  Forall2 (row_ion float_of_digits int_of_digits)
    [["2000"; "3"]]%string [mkIon (inject_Z 2000) 3] /\
  (length (@nil string) < 2)%nat /\
  from_skyline_csv float_of_digits int_of_digits
    (["mz"; "charge"] :: [["2000"; "3"]] ++ [] :: [["1000"; "2"]])%string
  = Throw (Std ValueError).
Proof.
  assert (Forall2 (row_ion float_of_digits int_of_digits)
            [["2000"; "3"]]%string [mkIon (inject_Z 2000) 3]) as HF.
  { repeat constructor.
    exists "2000"%string, "3"%string, []. repeat split. }
  assert (length (@nil string) < 2)%nat as Hs by (cbn; lia).
  split; [exact HF|]. split; [exact Hs|].
  apply (proj1 (proj2 (from_skyline_csv_errors float_of_digits int_of_digits))
           ["mz"; "charge"]%string _ _ [] [["1000"; "2"]]%string HF Hs).
Defined.

(** A file with a header row only loads to an empty [DDAList]; a
    searcher built on it finds no spectrum: [run] ends with [IndexError] at
    the first spectrum, whatever the tolerances. *)
Lemma from_skyline_csv_header_only (to_float : string -> result Q)
  (to_int : string -> result Z) (header : list string) :
  from_skyline_csv to_float to_int [header] = Return (DDAList_new []) /\
  forall ms1 ms2 sp rest,
    run (mkReporterSearcher (DDAList_new []) ms1 ms2) (sp :: rest)
    = ([], Some IndexError).
Proof.
  split; [reflexivity|].
  intros ms1 ms2 sp rest. cbn [run]. unfold run_step, find.
  cbn [_dda_list DDAList_new _data sorted].
  rewrite (proj2 (most_closed_nil Ion_mz (precursor_mz sp))).
  rewrite !bind_Raise. reflexivity.
Qed.

(** ** [extract_scan] *)

Lemma strip_prefix_Some p : forall t r,
  strip_prefix p t = Some r <-> t = p ++ r.
Proof.
  induction p as [|a p IH]; intros t r; cbn [strip_prefix app].
  - split; congruence.
  - destruct t as [|b t].
    + split; discriminate.
    + destruct (Ascii.eqb_spec a b) as [->|Hab].
      * rewrite IH. split; congruence.
      * split; [discriminate | congruence].
Qed.

Lemma span_digits_split t :
  t = (span_digits t).1 ++ (span_digits t).2 /\
  forallb is_digit (span_digits t).1 = true /\
  no_digit_ahead (span_digits t).2.
Proof.
  induction t as [|c t (IH1 & IH2 & IH3)]; cbn [span_digits].
  - repeat split.
  - destruct (is_digit c) eqn:Hc.
    + destruct (span_digits t) as [ds rest]. cbn [fst snd app forallb] in *.
      rewrite Hc. split; [congruence|]. split; assumption.
    + cbn [fst snd app forallb no_digit_ahead]. repeat split. exact Hc.
Qed.

Lemma span_digits_unique ds suf :
  forallb is_digit ds = true -> no_digit_ahead suf ->
  span_digits (ds ++ suf) = (ds, suf).
Proof.
  intros Hds Hsuf. induction ds as [|c ds IH]; cbn [app].
  - destruct suf as [|c suf]; [reflexivity|].
    cbn [span_digits]. cbn [no_digit_ahead] in Hsuf. rewrite Hsuf. reflexivity.
  - cbn [forallb] in Hds. apply andb_true_iff in Hds as [Hc Hds].
    cbn [span_digits]. rewrite Hc, (IH Hds). reflexivity.
Qed.

Lemma match_here_Some t ds :
  match_here t = Some ds <->
  exists suf, t = scan_eq ++ ds ++ suf /\ ds <> [] /\
    forallb is_digit ds = true /\ no_digit_ahead suf.
Proof.
  unfold match_here. split.
  - destruct (strip_prefix scan_eq t) as [rest|] eqn:Hp; [|discriminate].
    apply strip_prefix_Some in Hp.
    destruct (span_digits_split rest) as (Hs & Hd & Hn).
    destruct (span_digits rest) as [[|c ds'] suf]; [discriminate|].
    intros H. injection H as <-. cbn [fst snd] in *.
    exists suf. split; [congruence|]. split; [discriminate|].
    split; assumption.
  - intros (suf & -> & Hne & Hd & Hn).
    rewrite (proj2 (strip_prefix_Some scan_eq _ (ds ++ suf)) eq_refl).
    rewrite (span_digits_unique ds suf Hd Hn).
    destruct ds; [contradiction | reflexivity].
Qed.

Lemma occurs_at_match_here t i ds :
  occurs_at t i ds <-> (i <= length t)%nat /\ match_here (drop i t) = Some ds.
Proof.
  unfold occurs_at. rewrite match_here_Some. split.
  - intros (suf & Hi & H). split; [exact Hi|]. exists suf. exact H.
  - intros (Hi & suf & H). exists suf. split; [exact Hi | exact H].
Qed.

Lemma occurs_at_cons c t i ds :
  occurs_at (c :: t) (S i) ds <-> occurs_at t i ds.
Proof.
  rewrite !occurs_at_match_here. cbn [drop length]. split; intros [H1 H2];
    (split; [lia | exact H2]).
Qed.

(** [re.search] returns the group of the leftmost occurrence, and fails
    only when there is none. *)
Lemma re_search_leftmost t :
  match re_search t with
  | Some g =>
      exists i, occurs_at t i g /\
        forall i' ds', (i' < i)%nat -> ~ occurs_at t i' ds'
  | None => forall i ds, ~ occurs_at t i ds
  end.
Proof.
  induction t as [|c t IH].
  - cbn [re_search]. destruct (match_here []) as [g|] eqn:Hm.
    + exists 0%nat. split; [|intros; lia].
      apply occurs_at_match_here. split; [cbn; lia | exact Hm].
    + intros i ds H. apply occurs_at_match_here in H as [Hi H].
      cbn [length] in Hi. assert (i = 0)%nat as -> by lia.
      cbn [drop] in H. congruence.
  - cbn [re_search]. destruct (match_here (c :: t)) as [g|] eqn:Hm.
    + exists 0%nat. split; [|intros; lia].
      apply occurs_at_match_here. split; [cbn; lia | exact Hm].
    + destruct (re_search t) as [g|].
      * destruct IH as (i & Hi & Hleast). exists (S i).
        split; [apply occurs_at_cons; exact Hi|].
        intros [|i'] ds' Hlt H.
        -- apply occurs_at_match_here in H as [_ H]. cbn [drop] in H.
           congruence.
        -- apply occurs_at_cons in H. apply (Hleast i' ds'); [lia | exact H].
      * intros [|i] ds H.
        -- apply occurs_at_match_here in H as [_ H]. cbn [drop] in H.
           congruence.
        -- apply occurs_at_cons in H. apply (IH i ds H).
Qed.

Lemma occurs_at_functional t i ds ds' :
  occurs_at t i ds -> occurs_at t i ds' -> ds = ds'.
Proof.
  rewrite !occurs_at_match_here. intros [_ H] [_ H']. congruence.
Qed.

(** X23.  [extract_scan] reads the number after the first [scan=] of the
    title that is followed by a digit, and it reads all the digits that
    follow: when the leftmost occurrence of the pattern is at position [i]
    with digits [ds], the result is [int] applied to [ds], the value or the
    exception. *)
Theorem extract_scan_leftmost (to_int : string -> result Z) (title : string)
  (i : nat) (ds : list ascii) :
  occurs_at (String.list_ascii_of_string title) i ds ->
  (forall i' ds', (i' < i)%nat ->
     ~ occurs_at (String.list_ascii_of_string title) i' ds') ->
  extract_scan to_int title = lift (to_int (String.string_of_list_ascii ds)).
Proof.
  intros Hocc Hleast. unfold extract_scan.
  pose proof (re_search_leftmost (String.list_ascii_of_string title)) as H.
  destruct (re_search (String.list_ascii_of_string title)) as [g|].
  - destruct H as (i0 & H0 & Hleast0).
    assert (i0 = i) as ->.
    { destruct (Nat.lt_trichotomy i0 i) as [Hlt|[Heq|Hgt]]; [|exact Heq|].
      - exfalso. apply (Hleast i0 g Hlt H0).
      - exfalso. apply (Hleast0 i ds Hgt Hocc). }
    rewrite (occurs_at_functional _ _ _ _ H0 Hocc). reflexivity.
  - exfalso. apply (H i ds Hocc).
Qed.

Lemma extract_scan_leftmost_witness :
  occurs_at (String.list_ascii_of_string "n scan= scan=0042 scan=7") 8
    (String.list_ascii_of_string "0042") /\
  extract_scan int_of_digits "n scan= scan=0042 scan=7" = Return 42%Z.
Proof.
  assert (occurs_at (String.list_ascii_of_string "n scan= scan=0042 scan=7") 8
            (String.list_ascii_of_string "0042")) as Hocc
    by (apply occurs_at_match_here; split; [cbn; lia | reflexivity]).
  split; [exact Hocc|].
  apply (extract_scan_leftmost int_of_digits "n scan= scan=0042 scan=7" 8
           (String.list_ascii_of_string "0042") Hocc).
  intros i' ds' Hlt H. apply occurs_at_match_here in H as [_ H].
  do 8 (destruct i' as [|i']; [discriminate H|]). lia.
Defined.

(** X24.  [extract_scan] raises [AttributeError] exactly when the title has
    no [scan=] followed by a digit. *)
Theorem extract_scan_no_match (to_int : string -> result Z) (title : string) :
  extract_scan to_int title = Throw AttributeError <->
  forall i ds, ~ occurs_at (String.list_ascii_of_string title) i ds.
Proof.
  unfold extract_scan.
  pose proof (re_search_leftmost (String.list_ascii_of_string title)) as H.
  destruct (re_search (String.list_ascii_of_string title)) as [g|].
  - destruct H as (i0 & H0 & _). split.
    + destruct (to_int _); discriminate.
    + intros Hno. exfalso. apply (Hno i0 g H0).
  - split; [intros _; exact H | reflexivity].
Qed.

Lemma extract_scan_no_match_witness :
  extract_scan int_of_digits "Scan=12 scan= 13" = Throw AttributeError /\
  forall i ds,
    ~ occurs_at (String.list_ascii_of_string "Scan=12 scan= 13") i ds.
Proof.
  split; [reflexivity|].
  apply (proj1 (extract_scan_no_match int_of_digits "Scan=12 scan= 13")).
  reflexivity.
Defined.

Example extract_scan_examples :
  extract_scan int_of_digits
    "run.2345.2345.2 File:run.raw, NativeID:controllerType=0 scan=2345"
  = Return 2345%Z /\
  extract_scan int_of_digits "scan=12abc scan=99" = Return 12%Z /\
  extract_scan int_of_digits "Scan=12 scan= 13" = Throw AttributeError.
Proof. repeat split. Qed.

(** ** [SearchRecord.as_dict] and [SearchRecord.fields] *)

Lemma row_set_keys d k v k0 :
  k0 ∈ (row_set d k v).*1 <-> k0 ∈ d.*1 \/ k0 = k.
Proof.
  induction d as [|[k' v'] d IH]; cbn [row_set fmap list_fmap fst].
  - rewrite elem_of_cons, elem_of_nil. tauto.
  - destruct (String.eqb_spec k' k) as [->|Hk];
      cbn [fmap list_fmap fst]; rewrite !elem_of_cons.
    + tauto.
    + change (list_fmap _ _ fst (row_set d k v)) with ((row_set d k v).*1).
      rewrite IH. change (list_fmap _ _ fst d) with (d.*1). tauto.
Qed.

Lemma row_set_NoDup d k v : NoDup d.*1 -> NoDup (row_set d k v).*1.
Proof.
  induction d as [|[k' v'] d IH]; cbn [row_set fmap list_fmap fst]; intros H.
  - apply NoDup_singleton.
  - apply NoDup_cons in H as [Hk' Hd].
    destruct (String.eqb_spec k' k) as [->|Hk]; cbn [fmap list_fmap fst].
    + apply NoDup_cons. split; assumption.
    + apply NoDup_cons. split; [|apply IH; exact Hd].
      change (list_fmap _ _ fst (row_set d k v)) with ((row_set d k v).*1).
      rewrite row_set_keys. intros [Hin|Heq]; [exact (Hk' Hin) | congruence].
Qed.

Lemma row_update_keys items : forall d k0,
  k0 ∈ (row_update d items).*1 <-> k0 ∈ d.*1 \/ k0 ∈ items.*1.
Proof.
  unfold row_update.
  induction items as [|[k v] items IH]; intros d k0;
    cbn [fold_left fmap list_fmap fst snd].
  - rewrite elem_of_nil. tauto.
  - change (list_fmap _ _ fst items) with (items.*1).
    rewrite IH, row_set_keys, elem_of_cons. tauto.
Qed.

Lemma row_update_NoDup items : forall d,
  NoDup d.*1 -> NoDup (row_update d items).*1.
Proof.
  unfold row_update.
  induction items as [|[k v] items IH]; intros d H; cbn [fold_left];
    [exact H|].
  apply IH. apply row_set_NoDup. exact H.
Qed.

Lemma run_record_step self specs r :
  r ∈ (run self specs).1 ->
  exists sp, sp ∈ specs /\ run_step self sp = Ok (Some r).
Proof.
  induction specs as [|sp specs IH]; cbn [run].
  - intros H. apply elem_of_nil in H. contradiction.
  - destruct (run_step self sp) as [[r0|]|e] eqn:Hstep.
    + destruct (run self specs) as [records e]. cbn [fst] in *.
      intros H. apply elem_of_cons in H as [->|H].
      * exists sp. split; [apply elem_of_cons; left; reflexivity | exact Hstep].
      * destruct (IH H) as (sp' & Hsp & Hs). exists sp'.
        split; [apply elem_of_cons; right; exact Hsp | exact Hs].
    + intros H. destruct (IH H) as (sp' & Hsp & Hs). exists sp'.
      split; [apply elem_of_cons; right; exact Hsp | exact Hs].
    + intros H. apply elem_of_nil in H. contradiction.
Qed.

(** X25.  For every record that [run] yields, and whatever [str] makes of a
    number, the keys of [as_dict()] are, as a set, the names of
    [fields()]: the row has no key outside the header that the exporter
    declares, and no column of the header is left without a value.  No key
    occurs twice in the row. *)
Theorem as_dict_columns (str : Q -> string) (self : ReporterSearcher)
  (specs : list Spectrum) (r : SearchRecord) :
  r ∈ (run self specs).1 ->
  (forall k, k ∈ (as_dict str r).*1 <-> k ∈ fields str) /\
  NoDup (as_dict str r).*1.
Proof.
  intros Hr. destruct (run_record_step self specs r Hr) as (sp & _ & Hstep).
  apply run_step_inv in Hstep as (ion & vs & _ & HF & ->).
  assert ((zip REPORTERS vs).*1 = REPORTERS) as Hkeys
    by (apply fst_zip; apply Forall2_length in HF; lia).
  unfold as_dict, fields. cbn [reporters rec_scan rec_precursor_mz]. split.
  - intros k. rewrite row_update_keys, row_update_keys.
    rewrite <- list_fmap_compose.
    change (fst ∘ (fun kv : Q * Q => (str kv.1, CNum kv.2)))
      with (str ∘ (@fst Q Q)).
    rewrite list_fmap_compose, Hkeys.
    cbn [fmap list_fmap fst]. rewrite elem_of_app, !elem_of_cons, !elem_of_nil.
    tauto.
  - apply row_update_NoDup. cbn [fmap list_fmap fst].
    apply NoDup_cons. split.
    + rewrite elem_of_cons, elem_of_nil. intros [H|[]]. discriminate H.
    + apply NoDup_singleton.
Qed.

Lemma as_dict_columns_witness :
  {| rec_scan := 17; rec_precursor_mz := 1000;
     reporters := zip REPORTERS [1500; 2500; 0; 0; 0; 0; 0; 0; 0; 0] |}
  ∈ (run searcher [spec_miss; spec_hit; spec_miss]).1 /\
  (forall k,
     k ∈ (as_dict (fun _ => "x"%string)
            {| rec_scan := 17; rec_precursor_mz := 1000;
               reporters :=
                 zip REPORTERS [1500; 2500; 0; 0; 0; 0; 0; 0; 0; 0] |}).*1
     <-> k ∈ fields (fun _ => "x"%string)) /\
  NoDup (as_dict (fun _ => "x"%string)
           {| rec_scan := 17; rec_precursor_mz := 1000;
              reporters :=
                zip REPORTERS [1500; 2500; 0; 0; 0; 0; 0; 0; 0; 0] |}).*1.
Proof.
  assert ({| rec_scan := 17; rec_precursor_mz := 1000;
             reporters := zip REPORTERS [1500; 2500; 0; 0; 0; 0; 0; 0; 0; 0] |}
          ∈ (run searcher [spec_miss; spec_hit; spec_miss]).1) as H
    by (rewrite run_end_to_end; apply list_elem_of_singleton; reflexivity).
  split; [exact H|].
  apply (as_dict_columns (fun _ => "x"%string) searcher
           [spec_miss; spec_hit; spec_miss] _ H).
Defined.

(** ** Queries outside the range, and ions of equal m/z *)

(** X26.  On a non-empty sequence ascending under [key]: a query below
    every key selects index 0, and a query at or above every key selects
    the last index. *)
Theorem index_most_closed_outside {A : Type} (key : A -> Q) (x : Q)
  (a : list A) :
  a <> [] -> ascending key a ->
  ((forall e, e ∈ a -> x < key e) -> index_most_closed x a key = Ok 0%nat) /\
  ((forall e, e ∈ a -> key e <= x) ->
   index_most_closed x a key = Ok (length a - 1)%nat).
Proof.
  intros Hne Ha. pose proof (nonempty_length a Hne) as Hlen.
  destruct (bisect_right_ascending key a x Ha) as (p & Hb & Hle & Hl & Hh).
  split.
  - intros Hall.
    assert (p = 0)%nat as Hp.
    { destruct p as [|p]; [reflexivity|]. exfalso.
      destruct (index_lt a p) as (e & He & _); [lia|].
      assert (key e <= x) by (apply (Hl p); [lia | exact He]).
      assert (x < key e)
        by (apply Hall; eapply list_elem_of_lookup_2; exact He).
      lra. }
    destruct (index_most_closed_cases key x a p Hb Hle)
      as [[_ Hi] | [(Hp0 & _) | (Hp' & _)]]; [exact Hi | lia | lia].
  - intros Hall.
    assert (p = length a) as Hp.
    { destruct (Nat.lt_ge_cases p (length a)) as [Hlt|Hge]; [|lia]. exfalso.
      destruct (index_lt a p) as (e & He & _); [exact Hlt|].
      assert (x < key e) by (apply (Hh p); [lia | exact He]).
      assert (key e <= x)
        by (apply Hall; eapply list_elem_of_lookup_2; exact He).
      lra. }
    destruct (index_most_closed_cases key x a p Hb Hle)
      as [[Hp0 _] | [(_ & _ & Hi) | (Hp' & _)]]; [lia | exact Hi | lia].
Qed.

Lemma index_most_closed_outside_witness :
  [1; 2; 3; 7; 8] <> [] /\ ascending id [1; 2; 3; 7; 8] /\
  (forall e, e ∈ [1; 2; 3; 7; 8] -> id e <= 10) /\
  index_most_closed 10 [1; 2; 3; 7; 8] id
  = Ok (length [1; 2; 3; 7; 8] - 1)%nat.
Proof.
  assert (ascending id [1; 2; 3; 7; 8]) as Ha
    by (repeat constructor; unfold key_le, id; lra).
  assert (forall e, e ∈ [1; 2; 3; 7; 8] -> id e <= 10) as Hall.
  { intros e He. unfold id.
    repeat (apply elem_of_cons in He as [->|He]; [lra|]).
    apply elem_of_nil in He. contradiction. }
  split; [discriminate|]. split; [exact Ha|]. split; [exact Hall|].
  apply (proj2 (index_most_closed_outside id 10 [1; 2; 3; 7; 8]
                  ltac:(discriminate) Ha) Hall).
Defined.



(** * The search on machine numbers *)

(** ** What needs no law: ranges and exits *)

Section MachRange.
Context (ar : arith) {A : Type} (key : A -> num ar) (a : list A) (x : num ar).

Lemma m_bisect_loop_range fuel lo hi :
  (lo <= hi <= length a)%nat -> (hi - lo < fuel)%nat ->
  exists p, Mach.bisect_loop ar key fuel a x lo hi = Ok p /\
            (lo <= p <= hi)%nat.
Proof.
  revert lo hi. induction fuel as [|fuel IH]; intros lo hi Hr Hf; [lia|].
  cbn [Mach.bisect_loop]. destruct (Nat.ltb_spec lo hi) as [Hlt|Hge].
  - pose proof (mid_bounds lo hi Hlt) as Hm.
    destruct (index_lt a (Nat.div (lo + hi) 2)) as (e & _ & ->); [lia|].
    rewrite bind_Ok. destruct (n_lt ar x (key e)).
    + destruct (IH lo (Nat.div (lo + hi) 2)) as (p & -> & Hp); [lia | lia |].
      exists p. split; [reflexivity | lia].
    + destruct (IH (Nat.div (lo + hi) 2 + 1)%nat hi) as (p & -> & Hp);
        [lia | lia |].
      exists p. split; [reflexivity | lia].
  - exists lo. split; [reflexivity | lia].
Qed.

Lemma m_bisect_right_range :
  exists p, Mach.bisect_right ar key x a = Ok p /\ (p <= length a)%nat.
Proof.
  unfold Mach.bisect_right.
  destruct (m_bisect_loop_range (S (length a)) 0 (length a)) as (p & -> & Hp);
    [lia | lia |].
  exists p. split; [reflexivity | lia].
Qed.

Lemma m_min_by_pair {B : Type} (f : B -> result (num ar)) (i1 i2 : B) k1 k2 :
  f i1 = Ok k1 -> f i2 = Ok k2 ->
  Mach.min_by ar f [i1; i2] = Ok (if n_lt ar k2 k1 then i2 else i1).
Proof.
  intros H1 H2. unfold Mach.min_by. rewrite H1, bind_Ok.
  cbn [Mach.min_loop]. rewrite H2, bind_Ok.
  destruct (n_lt ar k2 k1); reflexivity.
Qed.

Lemma m_index_most_closed_cases p :
  Mach.bisect_right ar key x a = Ok p -> (p <= length a)%nat ->
  (p = 0%nat /\ Mach.index_most_closed ar x a key = Ok 0%nat) \/
  (p <> 0%nat /\ p = length a /\
     Mach.index_most_closed ar x a key = Ok (length a - 1)%nat) \/
  ((0 < p < length a)%nat /\ exists u v,
     a !! (p - 1)%nat = Some u /\ a !! p = Some v /\
     Mach.index_most_closed ar x a key =
       Ok (if n_lt ar (n_abs ar (n_sub ar x (key u)))
                      (n_abs ar (n_sub ar x (key v)))
           then (p - 1)%nat else p)).
Proof.
  intros Hb Hle. unfold Mach.index_most_closed. rewrite Hb, bind_Ok.
  destruct (Nat.eqb_spec p 0) as [->|Hp0]; [left; split; reflexivity|].
  destruct (Nat.eqb_spec p (length a)) as [Hpl|Hpl].
  - right. left. split; [assumption|]. split; [assumption | reflexivity].
  - right. right. split; [lia|].
    destruct (index_lt a (p - 1)) as (u & Hu & Hiu); [lia|].
    destruct (index_lt a p) as (v & Hv & Hiv); [lia|].
    exists u, v. split; [assumption|]. split; [assumption|].
    apply m_min_by_pair.
    + rewrite Hiv. reflexivity.
    + rewrite Hiu. reflexivity.
Qed.

Lemma m_index_most_closed_in_range :
  a <> [] ->
  exists i e, Mach.index_most_closed ar x a key = Ok i /\ a !! i = Some e.
Proof.
  intros Hne. pose proof (nonempty_length a Hne) as Hlen.
  destruct m_bisect_right_range as (p & Hb & Hle).
  destruct (m_index_most_closed_cases p Hb Hle)
    as [[_ Hi] | [(_ & _ & Hi) | (Hp & u & v & Hu & Hv & Hi)]].
  - destruct (index_lt a 0) as (e & He & _); [lia|]. eauto.
  - destruct (index_lt a (length a - 1)) as (e & He & _); [lia|]. eauto.
  - rewrite Hi. destruct (n_lt ar _ _); eauto.
Qed.
End MachRange.

(** ** What follows from the laws of the arithmetic *)

Section MachOrder.
Context (ar : arith) (L : laws ar).

Lemma lt_true_le x y :
  real L x -> real L y -> n_lt ar x y = true -> n_le ar x y = true.
Proof.
  intros Hx Hy H. rewrite (lt_le ar L x y Hx Hy) in H.
  apply negb_true_iff in H.
  destruct (le_total ar L x y Hx Hy) as [Hle|Hle]; [exact Hle | congruence].
Qed.

Lemma lt_false_le x y :
  real L x -> real L y -> n_lt ar x y = false -> n_le ar y x = true.
Proof.
  intros Hx Hy H. rewrite (lt_le ar L x y Hx Hy) in H.
  apply negb_false_iff in H. exact H.
Qed.

Lemma le_refl x : real L x -> n_le ar x x = true.
Proof. intros Hx. destruct (le_total ar L x x Hx Hx); assumption. Qed.

Lemma lt_le_lt x k k' :
  real L x -> real L k -> real L k' ->
  n_lt ar x k = true -> n_le ar k k' = true -> n_lt ar x k' = true.
Proof.
  intros Hx Hk Hk' Hlt Hle. rewrite (lt_le ar L x k' Hx Hk').
  apply negb_true_iff. destruct (n_le ar k' x) eqn:E; [|reflexivity].
  pose proof (le_trans ar L k k' x Hk Hk' Hx Hle E) as Hkx.
  rewrite (lt_le ar L x k Hx Hk), Hkx in Hlt. discriminate.
Qed.

Lemma asc_head {A : Type} (key : A -> num ar) (l : list A) : forall u,
  asc key (u :: l) -> Forall (fun e => fin L (key e)) (u :: l) ->
  forall e, e ∈ l -> n_le ar (key u) (key e) = true.
Proof.
  induction l as [|y l IH]; intros u Ha HF e He.
  - apply elem_of_nil in He. contradiction.
  - apply Sorted_inv in Ha as [Hs Hhd]. apply HdRel_inv in Hhd.
    apply Forall_cons in HF as [Hu HF].
    apply elem_of_cons in He as [->|He]; [exact Hhd|].
    pose proof (IH y Hs HF e He) as Hye.
    apply Forall_cons in HF as [Hy HF].
    rewrite Forall_forall in HF.
    apply (le_trans ar L (key u) (key y) (key e)); try assumption;
      apply (fin_real ar L); try assumption.
    apply HF. exact He.
Qed.

Lemma asc_lookup_gen {A : Type} (key : A -> num ar) (a : list A) :
  asc key a -> Forall (fun e => fin L (key e)) a ->
  forall i j ei ej, (i <= j)%nat ->
    a !! i = Some ei -> a !! j = Some ej -> n_le ar (key ei) (key ej) = true.
Proof.
  induction a as [|u l IH]; intros Ha HF i j ei ej Hij Hi Hj; [discriminate|].
  destruct i as [|i], j as [|j]; cbn in Hi, Hj.
  - injection Hi as <-. injection Hj as <-.
    apply le_refl. apply (fin_real ar L).
    apply Forall_cons in HF as [Hu _]. exact Hu.
  - injection Hi as <-. apply (asc_head key l u Ha HF).
    eapply list_elem_of_lookup_2. exact Hj.
  - lia.
  - apply Sorted_inv in Ha as [Hs _]. apply Forall_cons in HF as [_ HF].
    apply (IH Hs HF i j ei ej); [lia | exact Hi | exact Hj].
Qed.

Section Keys.
Context {A : Type} (key : A -> num ar) (a : list A).
Hypothesis keys_fin : Forall (fun e => fin L (key e)) a.

Lemma key_fin i e : a !! i = Some e -> fin L (key e).
Proof.
  intros H. rewrite Forall_forall in keys_fin. apply keys_fin.
  eapply list_elem_of_lookup_2. exact H.
Qed.

Lemma key_real i e : a !! i = Some e -> real L (key e).
Proof. intros H. apply (fin_real ar L). eapply key_fin. exact H. Qed.

Lemma asc_lookup i j ei ej :
  asc key a -> (i <= j)%nat ->
  a !! i = Some ei -> a !! j = Some ej -> n_le ar (key ei) (key ej) = true.
Proof.
  intros Ha Hij Hi Hj.
  apply (asc_lookup_gen key a Ha keys_fin i j ei ej Hij Hi Hj).
Qed.

Context (x : num ar).
Hypothesis x_fin : fin L x.

(** The invariant of the bisection loop. *)
Definition m_split_at (p q : nat) : Prop :=
  (forall i e, (i < p)%nat -> a !! i = Some e -> n_le ar (key e) x = true) /\
  (forall i e, (q <= i)%nat -> a !! i = Some e -> n_lt ar x (key e) = true).

Lemma m_bisect_loop_split fuel lo hi p :
  asc key a -> (lo <= hi <= length a)%nat ->
  m_split_at lo hi ->
  Mach.bisect_loop ar key fuel a x lo hi = Ok p -> m_split_at p p.
Proof.
  intros Ha. revert lo hi.
  induction fuel as [|fuel IH]; intros lo hi Hr [Hl Hh] Hp; [discriminate|].
  cbn [Mach.bisect_loop] in Hp. destruct (Nat.ltb_spec lo hi) as [Hlt|Hge].
  - pose proof (mid_bounds lo hi Hlt) as Hm.
    destruct (index_lt a (Nat.div (lo + hi) 2)) as (e & He & Hi); [lia|].
    rewrite Hi, bind_Ok in Hp.
    pose proof (fin_real ar L x x_fin) as Hx.
    pose proof (key_real _ _ He) as Hke.
    destruct (n_lt ar x (key e)) eqn:Hc.
    + apply (IH lo (Nat.div (lo + hi) 2)); [lia | | assumption].
      split; [assumption|].
      intros i ei Hge Hei.
      apply (lt_le_lt x (key e) (key ei)); try assumption.
      * eapply key_real. exact Hei.
      * apply (asc_lookup _ _ _ _ Ha Hge He Hei).
    + apply (IH (Nat.div (lo + hi) 2 + 1)%nat hi); [lia | | assumption].
      split; [|assumption].
      intros i ei Hlt' Hei.
      assert (i <= Nat.div (lo + hi) 2)%nat as Hle by lia.
      apply (le_trans ar L (key ei) (key e) x); try assumption.
      * eapply key_real. exact Hei.
      * apply (asc_lookup _ _ _ _ Ha Hle Hei He).
      * apply lt_false_le; assumption.
  - apply Ok_inj in Hp. subst p.
    assert (lo = hi) as -> by lia. split; assumption.
Qed.

Lemma m_bisect_right_asc :
  asc key a ->
  exists p, Mach.bisect_right ar key x a = Ok p /\ (p <= length a)%nat /\
    m_split_at p p.
Proof.
  intros Ha. destruct (m_bisect_right_range ar key a x) as (p & Hp & Hle).
  exists p. split; [assumption|]. split; [assumption|].
  unfold Mach.bisect_right in Hp.
  apply (m_bisect_loop_split (S (length a)) 0%nat (length a) p Ha);
    [lia | | assumption].
  split.
  - intros i e Hi. lia.
  - intros i e Hi He. apply lookup_lt_Some in He. lia.
Qed.

(** The computed distance from [x], in the order the code subtracts. *)
Definition m_dist (e : A) : num ar := n_abs ar (n_sub ar x (key e)).

Lemma m_dist_real i e : a !! i = Some e -> real L (m_dist e).
Proof.
  intros H. apply (dist_real ar L); [exact x_fin | eapply key_fin; exact H].
Qed.

(** The selected index has the least computed distance [abs(x - key)]. *)
Lemma m_index_most_closed_least i :
  asc key a -> a <> [] ->
  Mach.index_most_closed ar x a key = Ok i ->
  exists ei, a !! i = Some ei /\
    forall j ej, a !! j = Some ej -> n_le ar (m_dist ei) (m_dist ej) = true.
Proof.
  intros Ha Hne Hi. pose proof (nonempty_length a Hne) as Hlen.
  pose proof (fin_real ar L x x_fin) as Hx.
  destruct (m_bisect_right_asc Ha) as (p & Hb & Hle & Hl & Hh).
  destruct (m_index_most_closed_cases ar key a x p Hb Hle)
    as [[-> Hi'] | [(_ & Hp & Hi') | (Hp & u & v & Hu & Hv & Hi')]];
    rewrite Hi' in Hi; apply Ok_inj in Hi; subst i.
  - destruct (index_lt a 0) as (e0 & He0 & _); [lia|].
    exists e0. split; [assumption|]. intros j ej Hj.
    apply (dist_above ar L); try assumption;
      try (eapply key_fin; eassumption).
    + apply lt_true_le; [assumption | eapply key_real; exact He0 |].
      apply (Hh 0%nat); [lia | exact He0].
    + apply (asc_lookup 0%nat j); [assumption | lia | assumption..].
  - destruct (index_lt a (length a - 1)) as (el & Hel & _); [lia|].
    exists el. split; [assumption|]. intros j ej Hj.
    pose proof (lookup_lt_Some _ _ _ Hj) as Hjl.
    apply (dist_below ar L); try assumption;
      try (eapply key_fin; eassumption).
    + apply (asc_lookup j (length a - 1)%nat);
        [assumption | lia | assumption..].
    + apply (Hl (length a - 1)%nat); [lia | exact Hel].
  - assert (n_le ar (key u) x = true) as Hux
      by (apply (Hl (p - 1)%nat); [lia | exact Hu]).
    assert (n_le ar x (key v) = true) as Hxv.
    { apply lt_true_le; [assumption | eapply key_real; exact Hv |].
      apply (Hh p); [lia | exact Hv]. }
    assert (forall j ej, a !! j = Some ej ->
              n_le ar (m_dist u) (m_dist ej) = true \/
              n_le ar (m_dist v) (m_dist ej) = true) as Hnear.
    { intros j ej Hj. destruct (Nat.lt_ge_cases j p) as [Hjp|Hjp].
      - left. apply (dist_below ar L); try assumption;
          try (eapply key_fin; eassumption).
        apply (asc_lookup j (p - 1)%nat); [assumption | lia | assumption..].
      - right. apply (dist_above ar L); try assumption;
          try (eapply key_fin; eassumption).
        apply (asc_lookup p j); assumption. }
    pose proof (m_dist_real _ _ Hu) as Hdu.
    pose proof (m_dist_real _ _ Hv) as Hdv.
    fold (m_dist u). fold (m_dist v).
    destruct (n_lt ar (m_dist u) (m_dist v)) eqn:Hc.
    + exists u. split; [assumption|]. intros j ej Hj.
      destruct (Hnear j ej Hj) as [H|H]; [exact H|].
      apply (le_trans ar L _ (m_dist v)); try assumption.
      * eapply m_dist_real. exact Hj.
      * apply lt_true_le; assumption.
    + exists v. split; [assumption|]. intros j ej Hj.
      destruct (Hnear j ej Hj) as [H|H]; [|exact H].
      apply (le_trans ar L _ (m_dist u)); try assumption.
      * eapply m_dist_real. exact Hj.
      * apply lt_false_le; assumption.
Qed.

Lemma m_nearest i :
  asc key a -> a <> [] ->
  Mach.index_most_closed ar x a key = Ok i -> nearest_at key x a i.
Proof.
  intros Ha Hne Hi.
  destruct (m_index_most_closed_least i Ha Hne Hi) as (ei & Hei & Hleast).
  exists ei. split; [exact Hei|]. intros j ej Hj.
  rewrite (dist_sym ar L (key ei) x), (dist_sym ar L (key ej) x);
    try assumption; try (eapply key_fin; eassumption).
  apply (Hleast j ej Hj).
Qed.
End Keys.
End MachOrder.

(** ** [sorted] on machine numbers *)





(** ** Exact arithmetic is an arithmetic *)

Definition Qexact_laws : laws Qexact.
Proof.
  refine {| fin := fun _ => True; real := fun _ => True |};
    cbn [n_le n_lt n_abs n_sub Qexact num].
  - intros x _. exact I.
  - intros x y _ _. rewrite !Qleb_true.
    destruct (Qlt_le_dec x y) as [H|H]; [left; lra | right; exact H].
  - intros x y z _ _ _. rewrite !Qleb_true. intros H1 H2. lra.
  - intros x y _ _. destruct (Qleb y x) eqn:E; cbn [negb].
    + apply Qltb_false. apply Qleb_true. exact E.
    + apply Qltb_true. apply Qleb_false. exact E.
  - intros x y _ _. exact I.
  - intros x y _ _. apply Qabs_Qminus.
  - intros x a b _ _ _. rewrite !Qleb_true. intros H1 H2.
    rewrite !Qabs_pos; lra.
  - intros x a b _ _ _. rewrite !Qleb_true. intros H1 H2.
    rewrite !Qabs_neg; lra.
Defined.

(** ** Closest-match search on machine numbers: the claims *)



(** On binary64 the functions return what Python returns, also where
    rounding makes two distances tie: [2**-60] is nearer to 1 than 2 is,
    but both computed distances are 1. *)
Example index_most_closed_b64 :
  Mach.index_most_closed B64 1%float [0x1p-60%float; 2%float] id = Ok 1%nat /\
  Mach.index_most_closed B64 5%float [4%float; 6%float] id = Ok 1%nat /\
  Mach.index_most_closed B64 4%float
    [1%float; 2%float; 3%float; 7%float; 8%float] id = Ok 2%nat.
Proof. repeat split. Qed.

(** X1.  On a non-empty sequence [most_closed] returns an element of the
    sequence, in every arithmetic.  In an arithmetic that meets the laws,
    when the sequence is ascending under [key] and the query and the keys
    are finite, for no element of the sequence is the computed
    [abs(key(e) - x)] smaller. *)
Theorem most_closed_nearest (ar : arith) {A : Type} (key : A -> num ar)
  (x : num ar) (a : list A) :
  a <> [] ->
  exists e, Mach.most_closed ar x a key = Ok e /\ e ∈ a /\
    forall L : laws ar,
      fin L x -> Forall (fun e => fin L (key e)) a -> asc key a ->
      forall e', e' ∈ a ->
        n_le ar (n_abs ar (n_sub ar (key e) x))
                (n_abs ar (n_sub ar (key e') x)) = true.
Proof.
  intros Hne.
  destruct (m_index_most_closed_in_range ar key a x Hne) as (i & e & Hi & He).
  exists e. split.
  { unfold Mach.most_closed. rewrite Hi, bind_Ok. apply index_Ok. exact He. }
  split; [eapply list_elem_of_lookup_2; exact He|].
  intros L Hx HF Ha e' He'.
  destruct (m_nearest ar L key a HF x Hx i Ha Hne Hi) as (e0 & He0 & Hnear).
  assert (e0 = e) as -> by congruence.
  apply list_elem_of_lookup_1 in He' as [j Hj].
  apply (Hnear j e' Hj).
Qed.

Lemma most_closed_nearest_witness :
  ([1; 2; 5] : list Q) <> [] /\ fin Qexact_laws (4 : Q) /\
  Forall (fun e : Q => fin Qexact_laws (id e)) [1; 2; 5] /\
  asc (ar := Qexact) id [1; 2; 5] /\
  exists e, Mach.most_closed Qexact 4 [1; 2; 5] id = Ok e /\ e ∈ [1; 2; 5] /\
    forall e', e' ∈ [1; 2; 5] ->
      n_le Qexact (n_abs Qexact (n_sub Qexact (id e) 4))
                  (n_abs Qexact (n_sub Qexact (id e') 4)) = true.
Proof.
  assert (Forall (fun e : Q => fin Qexact_laws (id e)) [1; 2; 5]) as HF
    by (repeat constructor).
  assert (asc (ar := Qexact) id [1; 2; 5]) as Ha by (repeat constructor).
  split; [discriminate|]. split; [exact I|]. split; [exact HF|].
  split; [exact Ha|].
  destruct (most_closed_nearest Qexact id 4 [1; 2; 5])
    as (e & Hmc & Hin & Hnear); [discriminate|].
  exists e. split; [exact Hmc|]. split; [exact Hin|].
  apply (Hnear Qexact_laws I HF Ha).
Defined.

(** ** [DDAList.find] on machine numbers: the claims *)




(** On binary64: the examples of the test suite, and a query at which
    rounding makes the two computed distances tie, so that the ion at 2
    is the candidate and its charge decides. *)
#[warnings="-inexact-float"]
Example find_b64 :
  Mach.find B64 (Mach.DDAList_new B64 m_ions_b64) 1000.5%float
    (Mach.Abs (ar := B64) 1%float) 3
  = Ok (Some (Mach.mkIon (ar := B64) 1000%float 3)) /\
  Mach.find B64 (Mach.DDAList_new B64 m_ions_b64) 1000.5%float
    (Mach.Abs (ar := B64) 1%float) 4 = Ok None /\
  Mach.find B64 (Mach.DDAList_new B64 m_ions_b64) 1000.5%float
    (Mach.Rel (ar := B64) 1000%float) 3
  = Ok (Some (Mach.mkIon (ar := B64) 1000%float 3)) /\
  Mach.find B64
    (Mach.DDAList_new B64 [Mach.mkIon (ar := B64) 0x1p-60%float 1;
                           Mach.mkIon (ar := B64) 2%float 2])
    1%float (Mach.Abs (ar := B64) 1%float) 1 = Ok None.
Proof. repeat split. Qed.



(** ** [Spectrum.get_intensity] on machine numbers: the claim *)



(** On binary64: the examples of the test suite, and the query at which
    rounding makes the peak at 2 the selected one. *)
#[warnings="-inexact-float"]
Example get_intensity_b64 :
  Mach.get_intensity B64 m_spec_b64 500%float (Mach.Abs (ar := B64) 1%float)
  = Ok 0%float /\
  Mach.get_intensity B64 m_spec_b64 100.5%float (Mach.Abs (ar := B64) 1%float)
  = Ok 1e6%float /\
  Mach.get_intensity B64 m_spec_b64 201%float (Mach.Abs (ar := B64) 5%float)
  = Ok 2e6%float /\
  Mach.get_intensity B64 m_spec_b64 100.5%float (Mach.Rel (ar := B64) 10%float)
  = Ok 0%float /\
  Mach.get_intensity B64 m_spec_b64 100.00001%float
    (Mach.Rel (ar := B64) 10%float) = Ok 1e6%float /\
  Mach.get_intensity B64
    (Mach.mkSpectrum (ar := B64) 1 1000%float 3
       [0x1p-60%float; 2%float] [7%float; 9%float])
    1%float (Mach.Abs (ar := B64) 1%float) = Ok 0%float.
Proof. repeat split. Qed.

(** ** [min_diff] on machine numbers *)

Section MinDiffFacts.
Context (ar : arith) (infinity : num ar) (of_bool : bool -> num ar).
Context (b : list (num ar)).



End MinDiffFacts.



(** On binary64, with [float("Inf")] for infinity and [True] counting as
    1: the reporters give [True]; three values whose first difference
    overflows give infinity. *)
#[warnings="-inexact-float"]
Example min_diff_b64 :
  Mach.min_diff B64 PrimFloat.infinity
    (fun b : bool => if b then 1%float else 0%float)
    [126.127726%float; 127.124761%float; 127.131081%float; 128.128116%float;
     128.134436%float; 129.131471%float; 129.137790%float; 130.134825%float;
     130.141145%float; 131.138180%float]
  = Ok (Mach.VBool (ar := B64) true) /\
  Mach.min_diff B64 PrimFloat.infinity
    (fun b : bool => if b then 1%float else 0%float)
    [(-1.7e308)%float; 1.7e308%float; 1.75e308%float]
  = Ok (Mach.VNum (ar := B64) PrimFloat.infinity) /\
  Mach.min_diff B64 PrimFloat.infinity
    (fun b : bool => if b then 1%float else 0%float)
    [1%float; 2%float]
  = Ok (Mach.VNum (ar := B64) PrimFloat.infinity).
Proof. repeat split. Qed.

(** ** [ReporterSearcher.run]: a matched spectrum without peaks *)

(** C2, as stated, fails: the precursor of the spectrum below matches the
    reference ion at 2000 with charge 3, but [get_intensity] raises on its
    empty fragment arrays, so no record is yielded for it and the run ends
    with [IndexError]. *)
Lemma run_matched_no_record :
  find (_dda_list searcher) (precursor_mz (mkSpectrum 19 2000 3 [] []))
       (ms1_tol searcher) (precursor_charge (mkSpectrum 19 2000 3 [] []))
  = Ok (Some (mkIon 2000 3)) /\
  run searcher [mkSpectrum 19 2000 3 [] []] = ([], Some IndexError).
Proof. split; vm_compute; reflexivity. Qed.
